(** * RingBuffer.cpp: a fixed-capacity circular buffer of bytes

    Shallow embedding of the ring buffer of [RingBuffer/RingBuffer.cpp]
    and of the properties its specification states about it.

    The C code works on [size_t] cursors that are never reduced modulo the
    capacity; only [cursor % Capacity] addresses the storage.  [size_t]
    arithmetic wraps modulo [2^64]; the embedding writes that wrap-around
    out.  Undefined behaviour of the C code (a modulus by zero, a copy or a
    subscript outside a block) is the [None] of the [option] monad. *)

From Stdlib Require Import ZArith Lia Znumtheory.
From Stdlib Require Import Strings.Byte.
From stdpp Require Import base option list.

Local Open Scope Z_scope.

(** ** Machine integers and memory *)

Definition BYTE : Type := Byte.byte.

(** [size_t] is 64 bits wide. *)
Definition SIZE_BITS : Z := 64.
Definition SIZE_MOD : Z := 2 ^ SIZE_BITS.

(** The value of a [size_t] expression whose mathematical value is [z]. *)
Definition wrap (z : Z) : Z := z mod SIZE_MOD.

(** [a % b] on [size_t]: undefined when [b] is zero. *)
Definition umod (a b : Z) : option Z :=
  if b =? 0 then None else Some (a mod b).

(** Length of a block, as an integer. *)
Definition zlen (l : list BYTE) : Z := Z.of_nat (length l).

(** [memcpy(dst + doff, src + soff, n)]: the block [dst] after the copy;
    undefined when either range leaves its block. *)
Definition memcpy (dst : list BYTE) (doff : Z) (src : list BYTE) (soff : Z)
    (n : Z) : option (list BYTE) :=
  if (0 <=? doff) && (0 <=? soff) && (0 <=? n)
     && (doff + n <=? zlen dst) && (soff + n <=? zlen src)
  then Some (take (Z.to_nat doff) dst
             ++ take (Z.to_nat n) (drop (Z.to_nat soff) src)
             ++ drop (Z.to_nat (doff + n)) dst)
  else None.

(** [blk[i] = b]. *)
Definition store (blk : list BYTE) (i : Z) (b : BYTE) : option (list BYTE) :=
  if (0 <=? i) && (i <? zlen blk) then Some (<[Z.to_nat i := b]> blk) else None.

(** [blk[i]]. *)
Definition load (blk : list BYTE) (i : Z) : option BYTE :=
  if 0 <=? i then blk !! Z.to_nat i else None.

(** ** The ring buffer (guarded revisions)

    [RingBuffer.cpp] lines 346-518 and 917-1111 and the copy in
    [unnamed/part_004] agree statement for statement; the last of them
    gives the unchecked byte accesses names of their own, and the embedding
    follows it.

    [Buffer] is the block the pointer addresses; the null pointer addresses
    the empty block. *)

Record RINGBUFFER : Type := mkRB {
  Buffer : list BYTE;
  Capacity : Z;
  ReadIndex : Z;
  WriteIndex : Z
}.

(** [memset(RingBuffer, 0, sizeof(RINGBUFFER))]. *)
Definition zeroed : RINGBUFFER :=
  {| Buffer := []; Capacity := 0; ReadIndex := 0; WriteIndex := 0 |}.

(** [malloc] is a parameter: it yields a block with arbitrary contents, or
    fails.  The function returns the buffer and its [size_t] result. *)
Definition InitializeRingBuffer (malloc : Z -> option (list BYTE))
    (capacity : Z) : RINGBUFFER * Z :=
  let RingBuffer := zeroed in
  if 0 <? capacity then
    match malloc capacity with
    | None => (RingBuffer, 0)
    | Some blk =>
        ({| Buffer := blk; Capacity := capacity;
            ReadIndex := ReadIndex RingBuffer;
            WriteIndex := WriteIndex RingBuffer |}, capacity)
    end
  else (RingBuffer, capacity).

(** [free] then [memset]. *)
Definition DestroyRingBuffer (RingBuffer : RINGBUFFER) : RINGBUFFER := zeroed.

(** [InitializeRingBuffer] once more, with its calls of [malloc] recorded:
    the third component lists the sizes it asks [malloc] for. *)
Definition InitializeRingBuffer_traced (malloc : Z -> option (list BYTE))
    (capacity : Z) : RINGBUFFER * Z * list Z :=
  let RingBuffer := zeroed in
  if 0 <? capacity then
    match malloc capacity with
    | None => (RingBuffer, 0, [capacity])
    | Some blk =>
        ({| Buffer := blk; Capacity := capacity;
            ReadIndex := ReadIndex RingBuffer;
            WriteIndex := WriteIndex RingBuffer |}, capacity, [capacity])
    end
  else (RingBuffer, capacity, []).

Definition CountRingBuffer (RingBuffer : RINGBUFFER) : Z :=
  wrap (WriteIndex RingBuffer - ReadIndex RingBuffer).

Definition FreeSpaceRingBuffer (RingBuffer : RINGBUFFER) : Z :=
  wrap (Capacity RingBuffer - CountRingBuffer RingBuffer).

Definition IsEmptyRingBuffer (RingBuffer : RINGBUFFER) : bool :=
  CountRingBuffer RingBuffer =? 0.

Definition IsFullRingBuffer (RingBuffer : RINGBUFFER) : bool :=
  CountRingBuffer RingBuffer =? Capacity RingBuffer.

Definition set_Buffer (RingBuffer : RINGBUFFER) (blk : list BYTE) : RINGBUFFER :=
  {| Buffer := blk; Capacity := Capacity RingBuffer;
     ReadIndex := ReadIndex RingBuffer; WriteIndex := WriteIndex RingBuffer |}.

(** [RingBuffer->WriteIndex += n]. *)
Definition add_WriteIndex (RingBuffer : RINGBUFFER) (n : Z) : RINGBUFFER :=
  {| Buffer := Buffer RingBuffer; Capacity := Capacity RingBuffer;
     ReadIndex := ReadIndex RingBuffer;
     WriteIndex := wrap (WriteIndex RingBuffer + n) |}.

(** [RingBuffer->ReadIndex += n]. *)
Definition add_ReadIndex (RingBuffer : RINGBUFFER) (n : Z) : RINGBUFFER :=
  {| Buffer := Buffer RingBuffer; Capacity := Capacity RingBuffer;
     ReadIndex := wrap (ReadIndex RingBuffer + n);
     WriteIndex := WriteIndex RingBuffer |}.

(** [Buffer[WriteIndex++ % Capacity] = Data]. *)
Definition WriteByteRingBufferUnchecked (RingBuffer : RINGBUFFER) (Data : BYTE)
    : option (RINGBUFFER * Z) :=
  Index ← umod (WriteIndex RingBuffer) (Capacity RingBuffer);
  blk ← store (Buffer RingBuffer) Index Data;
  Some (add_WriteIndex (set_Buffer RingBuffer blk) 1, 1).

Definition WriteByteRingBuffer (RingBuffer : RINGBUFFER) (Data : BYTE)
    : option (RINGBUFFER * Z) :=
  if IsFullRingBuffer RingBuffer then Some (RingBuffer, 0)
  else WriteByteRingBufferUnchecked RingBuffer Data.

(** [Data] is the caller's block, [Size] the number of bytes requested. *)
Definition WriteRingBuffer (RingBuffer : RINGBUFFER) (Data : list BYTE)
    (Size : Z) : option (RINGBUFFER * Z) :=
  if Capacity RingBuffer =? 0 then Some (RingBuffer, 0)
  else
    Index ← umod (WriteIndex RingBuffer) (Capacity RingBuffer);
    let FreeSpace := FreeSpaceRingBuffer RingBuffer in
    let WriteSlack := wrap (Capacity RingBuffer - Index) in
    let ToWrite := Z.min FreeSpace Size in
    if ToWrite =? 0 then Some (RingBuffer, 0)
    else
      blk ← (if ToWrite <=? WriteSlack
             then memcpy (Buffer RingBuffer) Index Data 0 ToWrite
             else
               blk1 ← memcpy (Buffer RingBuffer) Index Data 0 WriteSlack;
               memcpy blk1 0 Data WriteSlack (wrap (ToWrite - WriteSlack)));
      Some (add_WriteIndex (set_Buffer RingBuffer blk) ToWrite, ToWrite).

(** [*Data = Buffer[ReadIndex++ % Capacity]]; [Data] is the byte the
    caller's location holds, and the second component what it holds
    afterwards. *)
Definition ReadByteRingBufferUnchecked (RingBuffer : RINGBUFFER) (Data : BYTE)
    : option (RINGBUFFER * BYTE * Z) :=
  Index ← umod (ReadIndex RingBuffer) (Capacity RingBuffer);
  b ← load (Buffer RingBuffer) Index;
  Some (add_ReadIndex RingBuffer 1, b, 1).

Definition ReadByteRingBuffer (RingBuffer : RINGBUFFER) (Data : BYTE)
    : option (RINGBUFFER * BYTE * Z) :=
  if IsEmptyRingBuffer RingBuffer then Some (RingBuffer, Data, 0)
  else ReadByteRingBufferUnchecked RingBuffer Data.

(** [Data] is the caller's output block before the call; the second
    component is that block after the call. *)
Definition ReadRingBuffer (RingBuffer : RINGBUFFER) (Data : list BYTE)
    (Size : Z) : option (RINGBUFFER * list BYTE * Z) :=
  if Capacity RingBuffer =? 0 then Some (RingBuffer, Data, 0)
  else
    Index ← umod (ReadIndex RingBuffer) (Capacity RingBuffer);
    let Count := CountRingBuffer RingBuffer in
    let ReadSlack := wrap (Capacity RingBuffer - Index) in
    let ToRead := Z.min Count Size in
    if ToRead =? 0 then Some (RingBuffer, Data, 0)
    else
      out ← (if ToRead <=? ReadSlack
             then memcpy Data 0 (Buffer RingBuffer) Index ToRead
             else
               out1 ← memcpy Data 0 (Buffer RingBuffer) Index ReadSlack;
               memcpy out1 ReadSlack (Buffer RingBuffer) 0
                      (wrap (ToRead - ReadSlack)));
      Some (add_ReadIndex RingBuffer ToRead, out, ToRead).

(** ** The byte-by-byte revision ([RingBuffer.cpp] lines 714-801)

    It shares the record; its free space is computed from the cursors
    directly, and its [WriteRingBuffer] and [ReadRingBuffer] are loops. *)

Module Slow.

Definition FreeSpaceRingBuffer (RingBuffer : RINGBUFFER) : Z :=
  wrap (wrap (Capacity RingBuffer - WriteIndex RingBuffer)
        + ReadIndex RingBuffer).

Definition CountRingBuffer (RingBuffer : RINGBUFFER) : Z :=
  wrap (WriteIndex RingBuffer - ReadIndex RingBuffer).

Definition IsEmptyRingBuffer (RingBuffer : RINGBUFFER) : bool :=
  CountRingBuffer RingBuffer =? 0.

Definition IsFullRingBuffer (RingBuffer : RINGBUFFER) : bool :=
  FreeSpaceRingBuffer RingBuffer =? 0.

(** [while (!IsFull(rb) && Size--) Buffer[WriteIndex++ % Capacity] = *(Data++);]
    [Pos] is [Data - Start]; every iteration decrements [Size], which
    bounds the loop. *)
Fixpoint WriteLoop (Size : nat) (RingBuffer : RINGBUFFER) (Data : list BYTE)
    (Pos : Z) : option (RINGBUFFER * Z) :=
  if IsFullRingBuffer RingBuffer then Some (RingBuffer, Pos)
  else
    match Size with
    | O => Some (RingBuffer, Pos)
    | S Size' =>
        b ← load Data Pos;
        Index ← umod (WriteIndex RingBuffer) (Capacity RingBuffer);
        blk ← store (Buffer RingBuffer) Index b;
        WriteLoop Size' (add_WriteIndex (set_Buffer RingBuffer blk) 1)
                  Data (Pos + 1)
    end.

Definition WriteRingBuffer (RingBuffer : RINGBUFFER) (Data : list BYTE)
    (Size : Z) : option (RINGBUFFER * Z) :=
  WriteLoop (Z.to_nat Size) RingBuffer Data 0.

(** [while (!IsEmpty(rb) && Size--) *(Data++) = Buffer[ReadIndex++ % Capacity];] *)
Fixpoint ReadLoop (Size : nat) (RingBuffer : RINGBUFFER) (Data : list BYTE)
    (Pos : Z) : option (RINGBUFFER * list BYTE * Z) :=
  if IsEmptyRingBuffer RingBuffer then Some (RingBuffer, Data, Pos)
  else
    match Size with
    | O => Some (RingBuffer, Data, Pos)
    | S Size' =>
        Index ← umod (ReadIndex RingBuffer) (Capacity RingBuffer);
        b ← load (Buffer RingBuffer) Index;
        out ← store Data Pos b;
        ReadLoop Size' (add_ReadIndex RingBuffer 1) out (Pos + 1)
    end.

Definition ReadRingBuffer (RingBuffer : RINGBUFFER) (Data : list BYTE)
    (Size : Z) : option (RINGBUFFER * list BYTE * Z) :=
  ReadLoop (Z.to_nat Size) RingBuffer Data 0.

End Slow.

(** ** The first revision ([RingBuffer.cpp] lines 21-167)

    It has no zero-capacity guard: [InitializeRingBuffer] always calls
    [malloc], and [WriteRingBuffer] and [ReadRingBuffer] take the modulus
    first. *)

Module Rev1.

Definition InitializeRingBuffer (malloc : Z -> option (list BYTE))
    (capacity : Z) : RINGBUFFER * Z :=
  match malloc capacity with
  | None => (zeroed, 0)
  | Some blk =>
      ({| Buffer := blk; Capacity := capacity;
          ReadIndex := 0; WriteIndex := 0 |}, capacity)
  end.

(** The same with its calls of [malloc] recorded. *)
Definition InitializeRingBuffer_traced (malloc : Z -> option (list BYTE))
    (capacity : Z) : RINGBUFFER * Z * list Z :=
  match malloc capacity with
  | None => (zeroed, 0, [capacity])
  | Some blk =>
      ({| Buffer := blk; Capacity := capacity;
          ReadIndex := 0; WriteIndex := 0 |}, capacity, [capacity])
  end.

Definition WriteRingBuffer (RingBuffer : RINGBUFFER) (Data : list BYTE)
    (Size : Z) : option (RINGBUFFER * Z) :=
  ClampedWriteindex ← umod (WriteIndex RingBuffer) (Capacity RingBuffer);
  let FreeSpace := Slow.FreeSpaceRingBuffer RingBuffer in
  let WriteSlack := wrap (Capacity RingBuffer - ClampedWriteindex) in
  let ToWrite := Z.min FreeSpace Size in
  blk ← (if ToWrite <=? WriteSlack
         then memcpy (Buffer RingBuffer) ClampedWriteindex Data 0 ToWrite
         else
           blk1 ← memcpy (Buffer RingBuffer) ClampedWriteindex Data 0
                         WriteSlack;
           memcpy blk1 0 Data WriteSlack (wrap (ToWrite - WriteSlack)));
  Some (add_WriteIndex (set_Buffer RingBuffer blk) ToWrite, ToWrite).

Definition ReadRingBuffer (RingBuffer : RINGBUFFER) (Data : list BYTE)
    (Size : Z) : option (RINGBUFFER * list BYTE * Z) :=
  ClampedReadindex ← umod (ReadIndex RingBuffer) (Capacity RingBuffer);
  let OccupiedSpace := CountRingBuffer RingBuffer in
  let ReadSlack := wrap (Capacity RingBuffer - ClampedReadindex) in
  let ToRead := Z.min OccupiedSpace Size in
  out ← (if ToRead <=? ReadSlack
         then memcpy Data 0 (Buffer RingBuffer) ClampedReadindex ToRead
         else
           out1 ← memcpy Data 0 (Buffer RingBuffer) ClampedReadindex
                         ReadSlack;
           memcpy out1 ReadSlack (Buffer RingBuffer) 0
                  (wrap (ToRead - ReadSlack)));
  Some (add_ReadIndex RingBuffer ToRead, out, ToRead).

End Rev1.

(** ** Sequences of operations *)

Inductive op : Type :=
  | Write (Data : list BYTE)
  | WriteByte (b : BYTE)
  | Read (Size : Z)
  | ReadByte.

(** What a call hands back: the count of a write, the bytes of a read. *)
Inductive result : Type :=
  | Written (n : Z)
  | Delivered (bytes : list BYTE).

(** One call.  A write offers the whole block; a read is given a block of
    [Size] bytes and delivers its first [n] bytes, [n] the count returned. *)
Definition step (RingBuffer : RINGBUFFER) (o : op)
    : option (RINGBUFFER * result) :=
  match o with
  | Write Data =>
      '(rb, n) ← WriteRingBuffer RingBuffer Data (zlen Data);
      Some (rb, Written n)
  | WriteByte b =>
      '(rb, n) ← WriteByteRingBuffer RingBuffer b;
      Some (rb, Written n)
  | Read Size =>
      '(rb, out, n) ← ReadRingBuffer RingBuffer
                        (replicate (Z.to_nat Size) x00) Size;
      Some (rb, Delivered (take (Z.to_nat n) out))
  | ReadByte =>
      '(rb, b, n) ← ReadByteRingBuffer RingBuffer x00;
      Some (rb, Delivered (if n =? 0 then [] else [b]))
  end.

Fixpoint run (RingBuffer : RINGBUFFER) (ops : list op)
    : option (RINGBUFFER * list result) :=
  match ops with
  | [] => Some (RingBuffer, [])
  | o :: ops' =>
      '(rb1, r) ← step RingBuffer o;
      '(rb2, rs) ← run rb1 ops';
      Some (rb2, r :: rs)
  end.

(** The bytes the writes of a sequence supply. *)
Fixpoint supplied (ops : list op) : list BYTE :=
  match ops with
  | [] => []
  | Write Data :: ops' => Data ++ supplied ops'
  | WriteByte b :: ops' => b :: supplied ops'
  | _ :: ops' => supplied ops'
  end.

(** The bytes the reads of a run returned. *)
Fixpoint delivered (rs : list result) : list BYTE :=
  match rs with
  | [] => []
  | Delivered bytes :: rs' => bytes ++ delivered rs'
  | Written _ :: rs' => delivered rs'
  end.

(** A write fits when it asks for no more than the free space. *)
Definition fits (RingBuffer : RINGBUFFER) (o : op) : bool :=
  match o with
  | Write Data => zlen Data <=? FreeSpaceRingBuffer RingBuffer
  | WriteByte _ => 1 <=? FreeSpaceRingBuffer RingBuffer
  | Read _ => true
  | ReadByte => true
  end.

(** No write of the sequence overflows the buffer. *)
Fixpoint no_overflow (RingBuffer : RINGBUFFER) (ops : list op) : bool :=
  match ops with
  | [] => true
  | o :: ops' =>
      fits RingBuffer o &&
      match step RingBuffer o with
      | Some (rb1, _) => no_overflow rb1 ops'
      | None => false
      end
  end.

(** The bytes still buffered: what one read of the whole occupancy
    delivers. *)
Definition pending (RingBuffer : RINGBUFFER) : list BYTE :=
  match step RingBuffer (Read (CountRingBuffer RingBuffer)) with
  | Some (_, Delivered bytes) => bytes
  | _ => []
  end.

(** The arguments of a call are [size_t] values. *)
Definition op_ok (o : op) : bool :=
  match o with
  | Write Data => zlen Data <? SIZE_MOD
  | Read Size => (0 <=? Size) && (Size <? SIZE_MOD)
  | _ => true
  end.

(** ** Well-formed and reachable states *)

(** The fields are [size_t] values, the storage has [Capacity] bytes and
    the occupancy does not exceed the capacity. *)
Record rb_wf (RingBuffer : RINGBUFFER) : Prop := mk_wf {
  wf_cap : 0 <= Capacity RingBuffer < SIZE_MOD;
  wf_read : 0 <= ReadIndex RingBuffer < SIZE_MOD;
  wf_write : 0 <= WriteIndex RingBuffer < SIZE_MOD;
  wf_len : zlen (Buffer RingBuffer) = Capacity RingBuffer;
  wf_count : CountRingBuffer RingBuffer <= Capacity RingBuffer
}.

(** [malloc n] yields [n] bytes when it succeeds. *)
Definition malloc_ok (malloc : Z -> option (list BYTE)) : Prop :=
  forall n blk, malloc n = Some blk -> zlen blk = n.

(** The states a program can bring a buffer to: initialise it, then call
    the four operations with any blocks and sizes for which the call is
    defined. *)
Inductive reachable (malloc : Z -> option (list BYTE)) (capacity : Z)
    : RINGBUFFER -> Prop :=
  | reach_init :
      reachable malloc capacity (InitializeRingBuffer malloc capacity).1
  | reach_Write rb Data Size rb' n :
      reachable malloc capacity rb ->
      0 <= Size < SIZE_MOD ->
      WriteRingBuffer rb Data Size = Some (rb', n) ->
      reachable malloc capacity rb'
  | reach_WriteByte rb b rb' n :
      reachable malloc capacity rb ->
      WriteByteRingBuffer rb b = Some (rb', n) ->
      reachable malloc capacity rb'
  | reach_Read rb Data Size rb' out n :
      reachable malloc capacity rb ->
      0 <= Size < SIZE_MOD ->
      ReadRingBuffer rb Data Size = Some (rb', out, n) ->
      reachable malloc capacity rb'
  | reach_ReadByte rb b rb' b' n :
      reachable malloc capacity rb ->
      ReadByteRingBuffer rb b = Some (rb', b', n) ->
      reachable malloc capacity rb'.

(** ** The unbounded reference buffer

    The reference of the wraparound property, in the words of the
    specification: a buffer whose storage never wraps.  Its storage is the
    whole stream of accepted bytes, addressed by the cursors themselves;
    nothing is taken modulo anything.  It accepts and delivers what the
    specification says: [min(size, FreeSpace())] bytes on a write,
    [min(size, Occupancy())] on a read. *)

Module Unbounded.

Record FIFO : Type := mkFIFO {
  stream : list BYTE;
  readCursor : Z;
  capacity : Z
}.

Definition writeCursor (f : FIFO) : Z := zlen (stream f).
Definition Occupancy (f : FIFO) : Z := writeCursor f - readCursor f.
Definition FreeSpace (f : FIFO) : Z := capacity f - Occupancy f.

Definition create (cap : Z) : FIFO :=
  {| stream := []; readCursor := 0; capacity := cap |}.

Definition write (f : FIFO) (data : list BYTE) (size : Z) : FIFO * Z :=
  let bytesWritten := Z.min size (FreeSpace f) in
  ({| stream := stream f ++ take (Z.to_nat bytesWritten) data;
      readCursor := readCursor f; capacity := capacity f |}, bytesWritten).

Definition read (f : FIFO) (size : Z) : FIFO * list BYTE :=
  let bytesRead := Z.min size (Occupancy f) in
  ({| stream := stream f; readCursor := readCursor f + bytesRead;
      capacity := capacity f |},
   take (Z.to_nat bytesRead) (drop (Z.to_nat (readCursor f)) (stream f))).

Definition step (f : FIFO) (o : op) : FIFO * result :=
  match o with
  | Write Data => let '(f', n) := write f Data (zlen Data) in (f', Written n)
  | WriteByte b => let '(f', n) := write f [b] 1 in (f', Written n)
  | Read Size => let '(f', bytes) := read f Size in (f', Delivered bytes)
  | ReadByte => let '(f', bytes) := read f 1 in (f', Delivered bytes)
  end.

Fixpoint run (f : FIFO) (ops : list op) : FIFO * list result :=
  match ops with
  | [] => (f, [])
  | o :: ops' =>
      let '(f1, r) := step f o in
      let '(f2, rs) := run f1 ops' in
      (f2, r :: rs)
  end.

End Unbounded.

(** ** The ring buffer against the reference *)

(** Cursor positions below [top] address the storage as if the cursors
    were unbounded: either the capacity divides the range of [size_t], or no
    position reaches that range. *)
Definition linear (cap top : Z) : Prop :=
  (cap | SIZE_MOD) \/ top <= SIZE_MOD.

(** The ring buffer [rb] holds what the reference [f] holds: the cursors
    are those of [f] reduced to [size_t], and the unread part of the stream
    sits in the storage at each position modulo the capacity. *)
Record sim (rb : RINGBUFFER) (f : Unbounded.FIFO) : Prop := mk_sim {
  sim_wf : rb_wf rb;
  sim_cap : Capacity rb = Unbounded.capacity f;
  sim_read : ReadIndex rb = wrap (Unbounded.readCursor f);
  sim_write : WriteIndex rb = wrap (Unbounded.writeCursor f);
  sim_order : 0 <= Unbounded.readCursor f <= Unbounded.writeCursor f
              /\ Unbounded.writeCursor f
                 <= Unbounded.readCursor f + Unbounded.capacity f;
  sim_bytes : forall p,
      Unbounded.readCursor f <= p < Unbounded.writeCursor f ->
      load (Buffer rb) (p mod Capacity rb) = load (Unbounded.stream f) p
}.

(** An allocator for examples: it always succeeds, with [0xff] bytes. *)
Definition filled_malloc (n : Z) : option (list BYTE) :=
  if 0 <=? n then Some (replicate (Z.to_nat n) xff) else None.

(** [rb_wf] as a test. *)
Definition wf_check (rb : RINGBUFFER) : bool :=
  (0 <=? Capacity rb) && (Capacity rb <? SIZE_MOD)
  && (0 <=? ReadIndex rb) && (ReadIndex rb <? SIZE_MOD)
  && (0 <=? WriteIndex rb) && (WriteIndex rb <? SIZE_MOD)
  && (zlen (Buffer rb) =? Capacity rb)
  && (CountRingBuffer rb <=? Capacity rb).

(** ** Statements about runs *)

(** Conservation on a run from [rb]: the run is defined, and the bytes the
    reads returned, followed by the bytes still buffered, are the bytes the
    writes supplied. *)
Definition conserved (rb : RINGBUFFER) (ops : list op) : Prop :=
  exists rb' rs,
    run rb ops = Some (rb', rs) /\ delivered rs ++ pending rb' = supplied ops.

(** Refinement on a run from [rb]: the run is defined and every call
    returns what the unbounded reference of the same capacity returns. *)
Definition refines (rb : RINGBUFFER) (ops : list op) : Prop :=
  exists rb',
    run rb ops
    = Some (rb', (Unbounded.run (Unbounded.create (Capacity rb)) ops).2).

Definition is_read (o : op) : bool :=
  match o with
  | Read _ | ReadByte => true
  | _ => false
  end.

(** ** Example data *)

(** ["Hello, World!\n"]. *)
Definition hello : list BYTE :=
  [x48; x65; x6c; x6c; x6f; x2c; x20; x57; x6f; x72; x6c; x64; x21; x0a].

(** An empty buffer of [c] bytes, all [x], with both cursors at [k]. *)
Definition idle (c : nat) (x : BYTE) (k : Z) : RINGBUFFER :=
  {| Buffer := replicate c x; Capacity := Z.of_nat c;
     ReadIndex := k; WriteIndex := k |}.

(** [n] times: write the byte [x], read it back. *)
Fixpoint churn (n : nat) (x : BYTE) : list op :=
  match n with
  | O => []
  | S n' => WriteByte x :: ReadByte :: churn n' x
  end.

Fixpoint churn_trace (n : nat) (x : BYTE) : list result :=
  match n with
  | O => []
  | S n' => Written 1 :: Delivered [x] :: churn_trace n' x
  end.

(** Two writes that fit, then a read of everything. *)
Definition burst : list op := [Write [x01; x02]; Write [x03]; Read 3].

(** [2^64 - 1] bytes through a buffer of three, then the burst: the write
    cursor passes the range of [size_t] inside the burst. *)
Definition wrap_ops : list op := churn (Z.to_nat (SIZE_MOD - 1)) xff ++ burst.

(** The same with [2^64 - 2] bytes: the first write of the burst also
    straddles the end of the storage. *)
Definition straddle_ops : list op :=
  churn (Z.to_nat (SIZE_MOD - 2)) xff ++ burst.

(** The calls of [main] up to the overflowing write: 14 bytes in and out,
    14 bytes again (this write is split at the end of the storage), then 20
    bytes offered to 15 free ones and two reads. *)
Definition main_ops : list op :=
  [Write hello] ++ replicate 14 (Read 1)
  ++ [Write hello] ++ replicate 14 (Read 1)
  ++ [Write (hello ++ replicate 6 x2a); Read 14; Read 100].

(** The first two rounds of [main], byte reads included; nothing overflows. *)
Definition round_trip_ops : list op :=
  [Write hello] ++ replicate 14 (Read 1)
  ++ [Write hello] ++ replicate 13 ReadByte.

Definition is_write (o : op) : bool :=
  match o with
  | Write _ | WriteByte _ => true
  | _ => false
  end.

(** * Proofs *)

(** ** [size_t] arithmetic *)

Lemma SIZE_MOD_val : SIZE_MOD = 18446744073709551616.
Proof. reflexivity. Qed.

Lemma SIZE_MOD_pos : 0 < SIZE_MOD.
Proof. rewrite SIZE_MOD_val. lia. Qed.

Lemma wrap_range z : 0 <= wrap z < SIZE_MOD.
Proof. apply Z.mod_pos_bound, SIZE_MOD_pos. Qed.

Lemma wrap_small z : 0 <= z < SIZE_MOD -> wrap z = z.
Proof. apply Z.mod_small. Qed.

Lemma wrap_add_l a b : wrap (wrap a + b) = wrap (a + b).
Proof. apply Zplus_mod_idemp_l. Qed.

Lemma wrap_sub_l a b : wrap (wrap a - b) = wrap (a - b).
Proof. apply Zminus_mod_idemp_l. Qed.

Lemma wrap_sub_r a b : wrap (a - wrap b) = wrap (a - b).
Proof. apply Zminus_mod_idemp_r. Qed.

(** The offset of slot [j] from the slot of cursor [c], around the ring. *)
Lemma ring_offset c cap j :
  0 < cap -> 0 <= j < cap ->
  (j - c) mod cap
  = if c mod cap <=? j then j - c mod cap else j - c mod cap + cap.
Proof.
  intros Hcap Hj. rewrite <- Zminus_mod_idemp_r.
  pose proof (Z.mod_pos_bound c cap Hcap) as Hc.
  destruct (Z.leb_spec (c mod cap) j).
  - apply Z.mod_small. lia.
  - symmetry. apply (Z.mod_unique_pos _ _ (-1)). lia. lia.
Qed.

(** ** Blocks *)

Lemma zlen_nonneg l : 0 <= zlen l.
Proof. unfold zlen. lia. Qed.

Lemma load_ge blk i : zlen blk <= i -> load blk i = None.
Proof.
  unfold load, zlen. intros H. destruct (Z.leb_spec 0 i); [|done].
  apply lookup_ge_None. lia.
Qed.

Lemma load_neg blk i : i < 0 -> load blk i = None.
Proof. unfold load. intros H. destruct (Z.leb_spec 0 i); [lia|done]. Qed.

Lemma load_is_Some blk i : 0 <= i < zlen blk -> is_Some (load blk i).
Proof.
  unfold load, zlen. intros H. destruct (Z.leb_spec 0 i); [|lia].
  apply lookup_lt_is_Some. lia.
Qed.

(** Two blocks of one length with the same bytes are the same block. *)
Lemma block_ext (a b : list BYTE) :
  zlen a = zlen b ->
  (forall i, 0 <= i < zlen a -> load a i = load b i) -> a = b.
Proof.
  unfold zlen. intros Hlen Hi. apply list_eq. intros k.
  destruct (decide (k < length a)%nat) as [Hk|Hk].
  - specialize (Hi (Z.of_nat k)). unfold load in Hi.
    destruct (Z.leb_spec 0 (Z.of_nat k)); [|lia].
    rewrite Nat2Z.id in Hi. apply Hi. lia.
  - rewrite !lookup_ge_None_2; [done| |]; lia.
Qed.

Lemma memcpy_Some dst doff src soff n :
  0 <= doff -> 0 <= soff -> 0 <= n ->
  doff + n <= zlen dst -> soff + n <= zlen src ->
  memcpy dst doff src soff n
  = Some (take (Z.to_nat doff) dst
          ++ take (Z.to_nat n) (drop (Z.to_nat soff) src)
          ++ drop (Z.to_nat (doff + n)) dst).
Proof.
  intros. unfold memcpy.
  rewrite !(proj2 (Z.leb_le _ _)) by assumption. reflexivity.
Qed.

Lemma memcpy_inv dst doff src soff n d :
  memcpy dst doff src soff n = Some d ->
  (0 <= doff /\ 0 <= soff /\ 0 <= n /\
   doff + n <= zlen dst /\ soff + n <= zlen src) /\
  d = take (Z.to_nat doff) dst
      ++ take (Z.to_nat n) (drop (Z.to_nat soff) src)
      ++ drop (Z.to_nat (doff + n)) dst.
Proof.
  unfold memcpy. intros H.
  destruct (0 <=? doff) eqn:E1; [|done].
  destruct (0 <=? soff) eqn:E2; [|done].
  destruct (0 <=? n) eqn:E3; [|done].
  destruct (doff + n <=? zlen dst) eqn:E4; [|done].
  destruct (soff + n <=? zlen src) eqn:E5; [|done].
  simpl in H. injection H as <-.
  apply Z.leb_le in E1, E2, E3, E4, E5. auto 10.
Qed.

Lemma memcpy_zlen dst doff src soff n d :
  memcpy dst doff src soff n = Some d -> zlen d = zlen dst.
Proof.
  intros H. apply memcpy_inv in H as [(H1 & H2 & H3 & H4 & H5) ->].
  unfold zlen in *.
  rewrite !length_app, !length_take, !length_drop. lia.
Qed.

(** The bytes of the destination after a copy. *)
Lemma memcpy_load dst doff src soff n d j :
  memcpy dst doff src soff n = Some d ->
  load d j = if (doff <=? j) && (j <? doff + n)
             then load src (soff + (j - doff)) else load dst j.
Proof.
  intros H. apply memcpy_inv in H as [(H1 & H2 & H3 & H4 & H5) ->].
  unfold load, zlen in *.
  destruct (Z.leb_spec 0 j) as [Hj|Hj].
  2:{ destruct (Z.leb_spec doff j); [lia|]. reflexivity. }
  destruct (Z.leb_spec doff j) as [Hd|Hd]; simpl.
  - rewrite lookup_app_r by (rewrite length_take; lia).
    rewrite length_take, Nat.min_l by lia.
    destruct (Z.ltb_spec j (doff + n)) as [Hn|Hn].
    + destruct (Z.leb_spec 0 (soff + (j - doff))); [|lia].
      rewrite lookup_app_l by (rewrite length_take, length_drop; lia).
      rewrite lookup_take_lt by lia. rewrite lookup_drop. f_equal. lia.
    + rewrite lookup_app_r by (rewrite length_take, length_drop; lia).
      rewrite length_take, length_drop, Nat.min_l by lia.
      rewrite lookup_drop. f_equal. lia.
  - rewrite lookup_app_l by (rewrite length_take; lia).
    rewrite lookup_take_lt by lia. reflexivity.
Qed.

Lemma store_Some blk i b :
  0 <= i < zlen blk -> store blk i b = Some (<[Z.to_nat i := b]> blk).
Proof.
  intros [H1 H2]. unfold store.
  rewrite (proj2 (Z.leb_le _ _) H1), (proj2 (Z.ltb_lt _ _) H2). reflexivity.
Qed.

Lemma store_inv blk i b blk' :
  store blk i b = Some blk' ->
  0 <= i < zlen blk /\ blk' = <[Z.to_nat i := b]> blk.
Proof.
  unfold store. destruct (Z.leb_spec 0 i), (Z.ltb_spec i (zlen blk));
    simpl; intros Heq; try done. injection Heq as <-. auto.
Qed.

Lemma store_zlen blk i b blk' : store blk i b = Some blk' -> zlen blk' = zlen blk.
Proof.
  intros H. apply store_inv in H as [_ ->]. unfold zlen.
  by rewrite length_insert.
Qed.

Lemma store_load blk i b blk' j :
  store blk i b = Some blk' ->
  load blk' j = if j =? i then Some b else load blk j.
Proof.
  intros H. apply store_inv in H as [[H1 H2] ->]. unfold load, zlen in *.
  destruct (Z.eqb_spec j i) as [->|Hne].
  - destruct (Z.leb_spec 0 i); [|lia].
    apply list_lookup_insert_eq. lia.
  - destruct (Z.leb_spec 0 j); [|done].
    apply list_lookup_insert_ne. lia.
Qed.

(** ** Occupancy *)

Lemma Count_range rb : rb_wf rb -> 0 <= CountRingBuffer rb <= Capacity rb.
Proof.
  intros Hwf. split; [|apply Hwf].
  unfold CountRingBuffer. apply wrap_range.
Qed.

Lemma FreeSpace_eq rb :
  rb_wf rb -> FreeSpaceRingBuffer rb = Capacity rb - CountRingBuffer rb.
Proof.
  intros Hwf. unfold FreeSpaceRingBuffer. apply wrap_small.
  pose proof (Count_range rb Hwf). pose proof (wf_cap rb Hwf). lia.
Qed.

Lemma Count_add_WriteIndex rb blk n :
  CountRingBuffer (add_WriteIndex (set_Buffer rb blk) n)
  = wrap (CountRingBuffer rb + n).
Proof.
  unfold CountRingBuffer; simpl. rewrite wrap_sub_l, wrap_add_l.
  f_equal. lia.
Qed.

Lemma Count_add_ReadIndex rb n :
  CountRingBuffer (add_ReadIndex rb n) = wrap (CountRingBuffer rb - n).
Proof.
  unfold CountRingBuffer; simpl. rewrite wrap_sub_r, wrap_sub_l.
  f_equal. lia.
Qed.

Lemma add_WriteIndex_0 rb :
  rb_wf rb -> add_WriteIndex (set_Buffer rb (Buffer rb)) 0 = rb.
Proof.
  intros Hwf. destruct rb as [b c r w]. unfold add_WriteIndex; simpl.
  f_equal. rewrite Z.add_0_r. apply wrap_small. apply (wf_write _ Hwf).
Qed.

Lemma add_ReadIndex_0 rb : rb_wf rb -> add_ReadIndex rb 0 = rb.
Proof.
  intros Hwf. destruct rb as [b c r w]. unfold add_ReadIndex; simpl.
  f_equal. rewrite Z.add_0_r. apply wrap_small. apply (wf_read _ Hwf).
Qed.

(** ** What one call does *)

(** [WriteRingBuffer] on a well-formed buffer: the count, the cursors and
    every byte of the storage afterwards. *)
Lemma WriteRingBuffer_spec rb Data Size :
  rb_wf rb -> 0 <= Size ->
  Z.min (FreeSpaceRingBuffer rb) Size <= zlen Data ->
  exists blk,
    WriteRingBuffer rb Data Size
    = Some (add_WriteIndex (set_Buffer rb blk)
              (Z.min (FreeSpaceRingBuffer rb) Size),
            Z.min (FreeSpaceRingBuffer rb) Size)
    /\ zlen blk = Capacity rb
    /\ forall j, 0 <= j < Capacity rb ->
         load blk j
         = if (j - WriteIndex rb) mod Capacity rb
              <? Z.min (FreeSpaceRingBuffer rb) Size
           then load Data ((j - WriteIndex rb) mod Capacity rb)
           else load (Buffer rb) j.
Proof.
  intros Hwf HSize HData.
  pose proof (Count_range rb Hwf) as HC.
  pose proof (FreeSpace_eq rb Hwf) as HF.
  pose proof (wf_cap rb Hwf) as Hcap. pose proof (wf_len rb Hwf) as Hlen.
  set (n := Z.min (FreeSpaceRingBuffer rb) Size) in *.
  assert (Hn : 0 <= n <= Capacity rb - CountRingBuffer rb) by lia.
  unfold WriteRingBuffer, umod. fold n.
  destruct (Z.eqb_spec (Capacity rb) 0) as [E0|E0].
  { exists (Buffer rb). assert (n = 0) as -> by lia.
    rewrite add_WriteIndex_0 by done. split; [done|]. split; [done|]. lia. }
  assert (Hpos : 0 < Capacity rb) by lia.
  pose proof (Z.mod_pos_bound (WriteIndex rb) (Capacity rb) Hpos) as HI.
  set (Index := WriteIndex rb mod Capacity rb) in *.
  cbn [mbind option_bind].
  rewrite (wrap_small (Capacity rb - Index)) by lia.
  destruct (Z.eqb_spec n 0) as [En|En].
  { exists (Buffer rb). rewrite En, add_WriteIndex_0 by done.
    split; [done|]. split; [done|]. intros j Hj.
    pose proof (Z.mod_pos_bound (j - WriteIndex rb) (Capacity rb) Hpos).
    destruct (Z.ltb_spec ((j - WriteIndex rb) mod Capacity rb) 0); [lia|done]. }
  destruct (Z.leb_spec n (Capacity rb - Index)) as [Hs|Hs].
  - (* one copy *)
    destruct (memcpy (Buffer rb) Index Data 0 n) as [blk|] eqn:E.
    2:{ rewrite memcpy_Some in E by lia. done. }
    exists blk. simpl. split; [done|].
    split; [rewrite (memcpy_zlen _ _ _ _ _ _ E); done|].
    intros j Hj. rewrite (memcpy_load _ _ _ _ _ _ j E).
    rewrite (ring_offset _ _ _ Hpos Hj). fold Index.
    destruct (Z.leb_spec Index j); simpl.
    + destruct (Z.ltb_spec j (Index + n)), (Z.ltb_spec (j - Index) n);
        try lia; done.
    + destruct (Z.ltb_spec (j - Index + Capacity rb) n); [lia|done].
  - (* the copy is split at the end of the storage *)
    rewrite (wrap_small (n - (Capacity rb - Index))) by lia.
    destruct (memcpy (Buffer rb) Index Data 0 (Capacity rb - Index))
      as [blk1|] eqn:E1.
    2:{ rewrite memcpy_Some in E1 by lia. done. }
    pose proof (memcpy_zlen _ _ _ _ _ _ E1) as Hl1. simpl.
    destruct (memcpy blk1 0 Data (Capacity rb - Index)
                (n - (Capacity rb - Index))) as [blk|] eqn:E2.
    2:{ rewrite memcpy_Some in E2 by lia. done. }
    exists blk. simpl. split; [done|].
    split; [rewrite (memcpy_zlen _ _ _ _ _ _ E2); lia|].
    intros j Hj. rewrite (memcpy_load _ _ _ _ _ _ j E2).
    rewrite (memcpy_load _ _ _ _ _ _ j E1).
    rewrite (ring_offset _ _ _ Hpos Hj). fold Index.
    destruct (Z.leb_spec 0 j); [|lia]. simpl.
    destruct (Z.leb_spec Index j); simpl.
    + destruct (Z.ltb_spec j (0 + (n - (Capacity rb - Index)))); [lia|].
      destruct (Z.ltb_spec j (Index + (Capacity rb - Index))); [|lia].
      destruct (Z.ltb_spec (j - Index) n); [|lia]. done.
    + destruct (Z.ltb_spec j (0 + (n - (Capacity rb - Index)))),
        (Z.ltb_spec (j - Index + Capacity rb) n); try lia.
      * f_equal. lia.
      * done.
Qed.

(** [ReadRingBuffer] on a well-formed buffer: the count, the cursors and
    every byte of the caller's block afterwards. *)
Lemma ReadRingBuffer_spec rb Data Size :
  rb_wf rb -> 0 <= Size ->
  Z.min (CountRingBuffer rb) Size <= zlen Data ->
  exists out,
    ReadRingBuffer rb Data Size
    = Some (add_ReadIndex rb (Z.min (CountRingBuffer rb) Size), out,
            Z.min (CountRingBuffer rb) Size)
    /\ zlen out = zlen Data
    /\ forall i,
         load out i
         = if (0 <=? i) && (i <? Z.min (CountRingBuffer rb) Size)
           then load (Buffer rb) ((ReadIndex rb + i) mod Capacity rb)
           else load Data i.
Proof.
  intros Hwf HSize HData.
  pose proof (Count_range rb Hwf) as HC.
  pose proof (wf_cap rb Hwf) as Hcap. pose proof (wf_len rb Hwf) as Hlen.
  set (n := Z.min (CountRingBuffer rb) Size) in *.
  assert (Hn : 0 <= n <= CountRingBuffer rb) by lia.
  unfold ReadRingBuffer, umod. fold n.
  assert (Hzero : n = 0 -> forall i : Z,
            load Data i = if (0 <=? i) && (i <? n)
                          then load (Buffer rb) ((ReadIndex rb + i) mod Capacity rb)
                          else load Data i).
  { intros -> i. destruct (Z.leb_spec 0 i), (Z.ltb_spec i 0); simpl; try lia; done. }
  destruct (Z.eqb_spec (Capacity rb) 0) as [E0|E0].
  { exists Data. assert (En : n = 0) by lia. rewrite En at 1 2.
    rewrite add_ReadIndex_0 by done. auto. }
  assert (Hpos : 0 < Capacity rb) by lia.
  pose proof (Z.mod_pos_bound (ReadIndex rb) (Capacity rb) Hpos) as HI.
  set (Index := ReadIndex rb mod Capacity rb) in *.
  cbn [mbind option_bind].
  rewrite (wrap_small (Capacity rb - Index)) by lia.
  destruct (Z.eqb_spec n 0) as [En|En].
  { exists Data. rewrite En at 1 2. rewrite add_ReadIndex_0 by done. auto. }
  assert (Hidx : forall i, 0 <= i < Capacity rb ->
            (ReadIndex rb + i) mod Capacity rb
            = if Index + i <? Capacity rb then Index + i
              else Index + i - Capacity rb).
  { intros i Hi. rewrite <- Zplus_mod_idemp_l. fold Index.
    destruct (Z.ltb_spec (Index + i) (Capacity rb)).
    - apply Z.mod_small. lia.
    - symmetry. apply (Z.mod_unique_pos _ _ 1); lia. }
  destruct (Z.leb_spec n (Capacity rb - Index)) as [Hs|Hs].
  - destruct (memcpy Data 0 (Buffer rb) Index n) as [out|] eqn:E.
    2:{ rewrite memcpy_Some in E by lia. done. }
    exists out. simpl. split; [done|].
    split; [apply (memcpy_zlen _ _ _ _ _ _ E)|].
    intros i. rewrite (memcpy_load _ _ _ _ _ _ i E).
    replace (0 + n) with n by lia.
    destruct (Z.leb_spec 0 i), (Z.ltb_spec i n); simpl; try done.
    rewrite Hidx by lia.
    destruct (Z.ltb_spec (Index + i) (Capacity rb)); [|lia]. f_equal. lia.
  - rewrite (wrap_small (n - (Capacity rb - Index))) by lia.
    destruct (memcpy Data 0 (Buffer rb) Index (Capacity rb - Index))
      as [out1|] eqn:E1.
    2:{ rewrite memcpy_Some in E1 by lia. done. }
    pose proof (memcpy_zlen _ _ _ _ _ _ E1) as Hl1. simpl.
    destruct (memcpy out1 (Capacity rb - Index) (Buffer rb) 0
                (n - (Capacity rb - Index))) as [out|] eqn:E2.
    2:{ rewrite memcpy_Some in E2 by lia. done. }
    exists out. simpl. split; [done|].
    split; [rewrite (memcpy_zlen _ _ _ _ _ _ E2); lia|].
    intros i. rewrite (memcpy_load _ _ _ _ _ _ i E2).
    rewrite (memcpy_load _ _ _ _ _ _ i E1).
    destruct (Z.leb_spec 0 i); simpl.
    2:{ destruct (Z.leb_spec (Capacity rb - Index) i); [lia|done]. }
    destruct (Z.ltb_spec i n); simpl.
    + rewrite Hidx by lia.
      destruct (Z.leb_spec (Capacity rb - Index) i); simpl.
      * destruct (Z.ltb_spec i (Capacity rb - Index + (n - (Capacity rb - Index))));
          [|lia].
        destruct (Z.ltb_spec (Index + i) (Capacity rb)); [lia|]. f_equal. lia.
      * destruct (Z.ltb_spec i (0 + (Capacity rb - Index))); [|lia].
        destruct (Z.ltb_spec (Index + i) (Capacity rb)); [|lia]. f_equal. lia.
    + destruct (Z.leb_spec (Capacity rb - Index) i); simpl.
      * destruct (Z.ltb_spec i (Capacity rb - Index + (n - (Capacity rb - Index))));
          [lia|].
        destruct (Z.ltb_spec i (0 + (Capacity rb - Index))); [lia|done].
      * lia.
Qed.

(** ** Well-formedness is kept *)

Lemma Count_fresh blk capacity :
  CountRingBuffer {| Buffer := blk; Capacity := capacity;
                     ReadIndex := 0; WriteIndex := 0 |} = 0.
Proof. reflexivity. Qed.

Lemma wf_zeroed : rb_wf zeroed.
Proof.
  pose proof SIZE_MOD_pos. unfold zeroed.
  split; rewrite ?Count_fresh; simpl; try lia. done.
Qed.

Lemma wf_Initialize malloc capacity :
  malloc_ok malloc -> 0 <= capacity < SIZE_MOD ->
  rb_wf (InitializeRingBuffer malloc capacity).1.
Proof.
  intros Hm Hc. unfold InitializeRingBuffer.
  destruct (Z.ltb_spec 0 capacity); [|apply wf_zeroed].
  destruct (malloc capacity) as [blk|] eqn:E; [|apply wf_zeroed].
  pose proof SIZE_MOD_pos. unfold zeroed; simpl.
  split; rewrite ?Count_fresh; simpl; try lia.

  by apply Hm.
Qed.

Lemma wf_add_WriteIndex rb blk n :
  rb_wf rb -> zlen blk = Capacity rb ->
  0 <= n <= FreeSpaceRingBuffer rb ->
  rb_wf (add_WriteIndex (set_Buffer rb blk) n).
Proof.
  intros Hwf Hblk Hn. pose proof (Count_range rb Hwf).
  pose proof (wf_cap rb Hwf). rewrite (FreeSpace_eq rb Hwf) in Hn.
  split; simpl; try apply Hwf; try apply wrap_range; try done.
  fold (add_WriteIndex (set_Buffer rb blk) n).
  rewrite Count_add_WriteIndex, wrap_small; lia.
Qed.

Lemma wf_add_ReadIndex rb n :
  rb_wf rb -> 0 <= n <= CountRingBuffer rb -> rb_wf (add_ReadIndex rb n).
Proof.
  intros Hwf Hn. pose proof (Count_range rb Hwf). pose proof (wf_cap rb Hwf).
  split; simpl; try apply Hwf; try apply wrap_range.
  fold (add_ReadIndex rb n).
  rewrite Count_add_ReadIndex, wrap_small; lia.
Qed.

(** What a defined call returns, whatever the caller's block. *)
Lemma WriteRingBuffer_inv rb Data Size rb' n :
  rb_wf rb -> 0 <= Size ->
  WriteRingBuffer rb Data Size = Some (rb', n) ->
  n = Z.min (FreeSpaceRingBuffer rb) Size /\
  exists blk, rb' = add_WriteIndex (set_Buffer rb blk) n /\
              zlen blk = Capacity rb.
Proof.
  intros Hwf HSize. pose proof (Count_range rb Hwf) as HC.
  pose proof (FreeSpace_eq rb Hwf) as HF.
  unfold WriteRingBuffer, umod.
  set (k := Z.min (FreeSpaceRingBuffer rb) Size).
  destruct (Z.eqb_spec (Capacity rb) 0) as [E0|E0].
  { intros [= <- <-]. split; [lia|]. exists (Buffer rb).
    rewrite add_WriteIndex_0 by done. split; [done|apply Hwf]. }
  cbn [mbind option_bind].
  destruct (Z.eqb_spec k 0) as [Ek|Ek].
  { intros [= <- <-]. split; [lia|]. exists (Buffer rb).
    rewrite add_WriteIndex_0 by done. split; [done|apply Hwf]. }
  destruct (k <=? _).
  - destruct (memcpy _ _ _ _ _) as [blk|] eqn:E; simpl; [|done].
    intros [= <- <-]. split; [done|]. exists blk. split; [done|].
    rewrite (memcpy_zlen _ _ _ _ _ _ E). apply Hwf.
  - destruct (memcpy (Buffer rb) _ _ _ _) as [blk1|] eqn:E1; simpl; [|done].
    destruct (memcpy blk1 _ _ _ _) as [blk|] eqn:E2; simpl; [|done].
    intros [= <- <-]. split; [done|]. exists blk. split; [done|].
    rewrite (memcpy_zlen _ _ _ _ _ _ E2), (memcpy_zlen _ _ _ _ _ _ E1).
    apply Hwf.
Qed.

Lemma ReadRingBuffer_inv rb Data Size rb' out n :
  rb_wf rb -> 0 <= Size ->
  ReadRingBuffer rb Data Size = Some (rb', out, n) ->
  n = Z.min (CountRingBuffer rb) Size /\ rb' = add_ReadIndex rb n.
Proof.
  intros Hwf HSize. pose proof (Count_range rb Hwf) as HC.
  unfold ReadRingBuffer, umod.
  set (k := Z.min (CountRingBuffer rb) Size).
  destruct (Z.eqb_spec (Capacity rb) 0) as [E0|E0].
  { intros [= <- <- <-]. split; [lia|]. by rewrite add_ReadIndex_0. }
  cbn [mbind option_bind].
  destruct (Z.eqb_spec k 0) as [Ek|Ek].
  { intros [= <- <- <-]. split; [lia|]. by rewrite add_ReadIndex_0. }
  destruct (k <=? _).
  - destruct (memcpy _ _ _ _ _) as [o|] eqn:E; simpl; [|done].
    by intros [= <- <- <-].
  - destruct (memcpy Data _ _ _ _) as [o1|] eqn:E1; simpl; [|done].
    destruct (memcpy o1 _ _ _ _) as [o|] eqn:E2; simpl; [|done].
    by intros [= <- <- <-].
Qed.

(** On a well-formed buffer that is not full the capacity is not zero,
    so the subscript of the byte operations is defined. *)
Lemma WriteByteRingBuffer_spec rb b :
  rb_wf rb ->
  WriteByteRingBuffer rb b
  = if IsFullRingBuffer rb then Some (rb, 0)
    else Some (add_WriteIndex
                 (set_Buffer rb
                    (<[Z.to_nat (WriteIndex rb mod Capacity rb) := b]>
                       (Buffer rb))) 1, 1).
Proof.
  intros Hwf. pose proof (Count_range rb Hwf) as HC.
  unfold WriteByteRingBuffer, IsFullRingBuffer.
  destruct (Z.eqb_spec (CountRingBuffer rb) (Capacity rb)) as [E|E]; [done|].
  unfold WriteByteRingBufferUnchecked, umod.
  destruct (Z.eqb_spec (Capacity rb) 0) as [E0|E0]; [lia|]. simpl.
  rewrite store_Some; [done|]. rewrite (wf_len rb Hwf).
  apply Z.mod_pos_bound. lia.
Qed.

Lemma ReadByteRingBuffer_empty rb Data :
  IsEmptyRingBuffer rb = true -> ReadByteRingBuffer rb Data = Some (rb, Data, 0).
Proof. unfold ReadByteRingBuffer. by intros ->. Qed.

Lemma ReadByteRingBuffer_nonempty rb Data :
  rb_wf rb -> IsEmptyRingBuffer rb = false ->
  exists b,
    load (Buffer rb) (ReadIndex rb mod Capacity rb) = Some b /\
    ReadByteRingBuffer rb Data = Some (add_ReadIndex rb 1, b, 1).
Proof.
  intros Hwf He. pose proof (Count_range rb Hwf) as HC.
  unfold ReadByteRingBuffer. rewrite He.
  unfold IsEmptyRingBuffer in He. apply Z.eqb_neq in He.
  assert (Hpos : 0 < Capacity rb) by lia.
  pose proof (Z.mod_pos_bound (ReadIndex rb) (Capacity rb) Hpos) as HI.
  destruct (load_is_Some (Buffer rb) (ReadIndex rb mod Capacity rb))
    as [b Hb]; [rewrite (wf_len rb Hwf); lia|].
  exists b. split; [done|].
  unfold ReadByteRingBufferUnchecked, umod.
  destruct (Z.eqb_spec (Capacity rb) 0); [lia|]. simpl. by rewrite Hb.
Qed.

(** ** Reachable states are well formed *)

Lemma filled_malloc_ok : malloc_ok filled_malloc.
Proof.
  intros n blk. unfold filled_malloc.
  destruct (Z.leb_spec 0 n); [|done]. intros [= <-].
  unfold zlen. rewrite length_replicate. lia.
Qed.

Lemma reachable_wf malloc capacity rb :
  malloc_ok malloc -> 0 <= capacity < SIZE_MOD ->
  reachable malloc capacity rb -> rb_wf rb.
Proof.
  intros Hm Hc Hr. induction Hr as
    [ | rb Data Size rb' n _ IH HS E | rb b rb' n _ IH E
      | rb Data Size rb' out n _ IH HS E | rb b rb' b' n _ IH E ].
  - by apply wf_Initialize.
  - apply WriteRingBuffer_inv in E as (-> & blk & -> & Hblk); [|done|lia].
    apply wf_add_WriteIndex; [done|done|].
    pose proof (Count_range rb IH). rewrite (FreeSpace_eq rb IH). lia.
  - rewrite WriteByteRingBuffer_spec in E by done.
    unfold IsFullRingBuffer in E.
    destruct (Z.eqb_spec (CountRingBuffer rb) (Capacity rb)) as [Ef|Ef];
      injection E as <- <-; [done|].
    pose proof (Count_range rb IH).
    apply wf_add_WriteIndex; [done| |rewrite (FreeSpace_eq rb IH); lia].
    unfold zlen. rewrite length_insert. apply IH.
  - apply ReadRingBuffer_inv in E as (-> & ->); [|done|lia].
    apply wf_add_ReadIndex; [done|]. pose proof (Count_range rb IH). lia.
  - destruct (IsEmptyRingBuffer rb) eqn:He.
    + rewrite ReadByteRingBuffer_empty in E by done. by injection E as <- <- <-.
    + destruct (ReadByteRingBuffer_nonempty rb b IH He) as (x & _ & E').
      rewrite E' in E. injection E as <- <- <-.
      apply wf_add_ReadIndex; [done|]. pose proof (Count_range rb IH).
      unfold IsEmptyRingBuffer in He. apply Z.eqb_neq in He. lia.
Qed.

(** ** More on blocks *)

Lemma load_app_l (l1 l2 : list BYTE) p :
  p < zlen l1 -> load (l1 ++ l2) p = load l1 p.
Proof.
  unfold load, zlen. intros H. destruct (Z.leb_spec 0 p); [|done].
  apply lookup_app_l. lia.
Qed.

Lemma load_app_r (l1 l2 : list BYTE) p :
  zlen l1 <= p -> load (l1 ++ l2) p = load l2 (p - zlen l1).
Proof.
  unfold load, zlen. intros H.
  destruct (Z.leb_spec 0 p), (Z.leb_spec 0 (p - Z.of_nat (length l1))); try lia.
  rewrite lookup_app_r by lia. f_equal. lia.
Qed.

Lemma load_take (l : list BYTE) n i :
  i < n -> load (take (Z.to_nat n) l) i = load l i.
Proof.
  unfold load. intros H. destruct (Z.leb_spec 0 i); [|done].
  apply lookup_take_lt. lia.
Qed.

Lemma load_drop (l : list BYTE) k i :
  0 <= k -> 0 <= i -> load (drop (Z.to_nat k) l) i = load l (k + i).
Proof.
  unfold load. intros Hk Hi.
  destruct (Z.leb_spec 0 i), (Z.leb_spec 0 (k + i)); try lia.
  rewrite lookup_drop. f_equal. lia.
Qed.

Lemma zlen_app (l1 l2 : list BYTE) : zlen (l1 ++ l2) = zlen l1 + zlen l2.
Proof. unfold zlen. rewrite length_app. lia. Qed.

Lemma zlen_take (l : list BYTE) n :
  0 <= n <= zlen l -> zlen (take (Z.to_nat n) l) = n.
Proof. unfold zlen. intros H. rewrite length_take. lia. Qed.

Lemma zlen_replicate n (b : BYTE) : 0 <= n -> zlen (replicate (Z.to_nat n) b) = n.
Proof. unfold zlen. intros H. rewrite length_replicate. lia. Qed.

(** ** Cursors as unbounded positions *)

Lemma linear_slot cap top p :
  0 < cap -> linear cap top -> 0 <= p < top -> wrap p mod cap = p mod cap.
Proof.
  intros Hcap [Hdiv|Htop] Hp.
  - apply Z.mod_mod_divide. done.
  - rewrite wrap_small; [done|lia].
Qed.

Lemma linear_le cap top top' : top' <= top -> linear cap top -> linear cap top'.
Proof. intros H [Hd|Ht]; [by left|right; lia]. Qed.

Lemma sim_Count rb f :
  sim rb f ->
  CountRingBuffer rb = Unbounded.writeCursor f - Unbounded.readCursor f.
Proof.
  intros H. unfold CountRingBuffer.
  rewrite (sim_read _ _ H), (sim_write _ _ H), wrap_sub_l, wrap_sub_r.
  apply wrap_small. pose proof (sim_order _ _ H).
  pose proof (wf_cap _ (sim_wf _ _ H)). rewrite (sim_cap _ _ H) in *. lia.
Qed.

Lemma sim_FreeSpace rb f :
  sim rb f -> FreeSpaceRingBuffer rb = Unbounded.FreeSpace f.
Proof.
  intros H. rewrite (FreeSpace_eq _ (sim_wf _ _ H)), (sim_Count _ _ H).
  unfold Unbounded.FreeSpace, Unbounded.Occupancy. by rewrite (sim_cap _ _ H).
Qed.

Lemma sim_create malloc capacity :
  malloc_ok malloc -> 0 <= capacity < SIZE_MOD ->
  sim (InitializeRingBuffer malloc capacity).1
      (Unbounded.create (Capacity (InitializeRingBuffer malloc capacity).1)).
Proof.
  intros Hm Hc. pose proof (wf_Initialize malloc capacity Hm Hc) as Hwf.
  pose proof (wf_cap _ Hwf).
  assert (HR : ReadIndex (InitializeRingBuffer malloc capacity).1 = 0
          /\ WriteIndex (InitializeRingBuffer malloc capacity).1 = 0).
  { unfold InitializeRingBuffer.
    destruct (0 <? capacity); [destruct (malloc capacity)|]; done. }
  destruct HR as [HR HW].
  split; unfold Unbounded.writeCursor, zlen; simpl; try done.
  - lia.
  - intros p Hp. lia.
Qed.

(** A write of the ring buffer is the write of the reference, as long as
    the positions written address the storage linearly. *)
Lemma sim_write_step rb f top Data Size :
  sim rb f -> linear (Capacity rb) top ->
  0 <= Size <= zlen Data ->
  Unbounded.writeCursor (Unbounded.write f Data Size).1 <= top ->
  exists rb',
    WriteRingBuffer rb Data Size = Some (rb', (Unbounded.write f Data Size).2)
    /\ sim rb' (Unbounded.write f Data Size).1.
Proof.
  intros Hsim Hlin HSize Htop.
  pose proof (sim_wf _ _ Hsim) as Hwf. pose proof (sim_order _ _ Hsim) as Hord.
  pose proof (sim_Count _ _ Hsim) as HCnt.
  pose proof (sim_FreeSpace _ _ Hsim) as HFree.
  pose proof (sim_cap _ _ Hsim) as Hcap. pose proof (wf_cap _ Hwf) as Hc.
  pose proof (Count_range _ Hwf) as HC.
  pose proof (FreeSpace_eq _ Hwf) as HF.
  unfold Unbounded.write in *. simpl in *.
  rewrite Z.min_comm, <- HFree in *.
  set (n := Z.min (FreeSpaceRingBuffer rb) Size) in *.
  assert (Hn : 0 <= n <= zlen Data) by lia.
  assert (Hn' : n <= Capacity rb - CountRingBuffer rb) by lia.
  destruct (WriteRingBuffer_spec rb Data Size Hwf) as (blk & E & Hblk & Hb);
    [lia|lia|]. fold n in E, Hb.
  unfold Unbounded.writeCursor in Htop; simpl in Htop.
  rewrite zlen_app, zlen_take in Htop by done.
  fold (Unbounded.writeCursor f) in Htop.
  eexists. split; [exact E|].
  split; simpl; try done.
  - apply wf_add_WriteIndex; [done|done|lia].
  - apply Hsim.
  - unfold Unbounded.writeCursor; simpl. rewrite zlen_app, zlen_take by done.
    rewrite (sim_write _ _ Hsim), wrap_add_l. done.
  - unfold Unbounded.writeCursor in *; simpl. rewrite zlen_app, zlen_take by done.
    lia.
  - unfold Unbounded.writeCursor; simpl. rewrite zlen_app, zlen_take by done.
    fold (Unbounded.writeCursor f). intros p Hp.
    destruct (Z.eq_dec n 0) as [En|En].
    { (* nothing written *)
      assert (Hpos : 0 < Capacity rb) by lia.
      pose proof (Z.mod_pos_bound p (Capacity rb) Hpos) as Hm.
      rewrite Hb by done.
      pose proof (Z.mod_pos_bound (p mod Capacity rb - WriteIndex rb)
                    (Capacity rb) Hpos).
      destruct (Z.ltb_spec ((p mod Capacity rb - WriteIndex rb) mod Capacity rb) n);
        [lia|].
      rewrite load_app_l by (fold (Unbounded.writeCursor f); lia).
      apply (sim_bytes _ _ Hsim). lia. }
    assert (Hpos : 0 < Capacity rb) by lia.
    pose proof (Z.mod_pos_bound p (Capacity rb) Hpos) as Hm.
    rewrite Hb by done.
    assert (Hoff : (p mod Capacity rb - WriteIndex rb) mod Capacity rb
                   = (p - Unbounded.writeCursor f) mod Capacity rb).
    { rewrite Zminus_mod, Z.mod_mod by lia.
      rewrite (sim_write _ _ Hsim).
      rewrite (linear_slot _ top) by (try done; lia).
      by rewrite <- Zminus_mod. }
    rewrite Hoff.
    destruct (Z.lt_ge_cases p (Unbounded.writeCursor f)) as [Hlt|Hge].
    + (* an unread byte: not overwritten *)
      assert ((p - Unbounded.writeCursor f) mod Capacity rb
              = p - Unbounded.writeCursor f + Capacity rb) as ->.
      { symmetry. apply (Z.mod_unique_pos _ _ (-1)); lia. }
      destruct (Z.ltb_spec (p - Unbounded.writeCursor f + Capacity rb) n); [lia|].
      rewrite load_app_l by (fold (Unbounded.writeCursor f); lia).
      apply (sim_bytes _ _ Hsim). lia.
    + (* a byte of this write *)
      rewrite Z.mod_small by lia.
      destruct (Z.ltb_spec (p - Unbounded.writeCursor f) n); [|lia].
      rewrite load_app_r by (fold (Unbounded.writeCursor f); lia).
      fold (Unbounded.writeCursor f). by rewrite load_take.
Qed.

(** A read of the ring buffer delivers what the reference delivers. *)
Lemma sim_read_step rb f top Data Size :
  sim rb f -> linear (Capacity rb) top ->
  Unbounded.writeCursor f <= top ->
  0 <= Size <= zlen Data ->
  exists rb' out,
    ReadRingBuffer rb Data Size
    = Some (rb', out, Z.min Size (Unbounded.Occupancy f))
    /\ take (Z.to_nat (Z.min Size (Unbounded.Occupancy f))) out
       = (Unbounded.read f Size).2
    /\ sim rb' (Unbounded.read f Size).1.
Proof.
  intros Hsim Hlin Htop HSize.
  pose proof (sim_wf _ _ Hsim) as Hwf. pose proof (sim_order _ _ Hsim) as Hord.
  pose proof (sim_Count _ _ Hsim) as HCnt.
  pose proof (sim_cap _ _ Hsim) as Hcap. pose proof (wf_cap _ Hwf) as Hc.
  pose proof (Count_range _ Hwf) as HC.
  unfold Unbounded.read. simpl.
  unfold Unbounded.Occupancy. rewrite Z.min_comm, <- HCnt.
  set (n := Z.min (CountRingBuffer rb) Size) in *.
  assert (Hn : 0 <= n <= zlen Data) by lia.
  assert (Hn' : n <= CountRingBuffer rb) by lia.
  destruct (ReadRingBuffer_spec rb Data Size Hwf) as (out & E & Hout & Hb);
    [lia|lia|]. fold n in E, Hb.
  exists (add_ReadIndex rb n), out. split; [exact E|]. split.
  - (* the bytes *)
    assert (Hdrop : zlen (drop (Z.to_nat (Unbounded.readCursor f))
                            (Unbounded.stream f))
                    = Unbounded.writeCursor f - Unbounded.readCursor f).
    { unfold zlen, Unbounded.writeCursor, zlen in *. rewrite length_drop. lia. }
    apply block_ext.
    { rewrite !zlen_take; lia. }
    rewrite zlen_take by lia. intros i Hi.
    rewrite !load_take by lia. rewrite Hb.
    destruct (Z.leb_spec 0 i), (Z.ltb_spec i n); try lia. simpl.
    rewrite load_drop by lia.
    assert (Hpos : 0 < Capacity rb) by lia.
    rewrite <- (sim_bytes _ _ Hsim) by lia. f_equal.
    rewrite Zplus_mod, (sim_read _ _ Hsim).
    rewrite (linear_slot _ top) by (try done; lia).
    by rewrite <- Zplus_mod.
  - split; simpl; try apply Hsim.
    + apply wf_add_ReadIndex; [done|lia].
    + by rewrite (sim_read _ _ Hsim), wrap_add_l.
    + unfold Unbounded.writeCursor in *; simpl. lia.
    + unfold Unbounded.writeCursor in *; simpl. intros p Hp.
      apply (sim_bytes _ _ Hsim). unfold Unbounded.writeCursor. lia.
Qed.

(** ** The byte operations are block operations of one byte *)

Lemma WriteByte_as_Write rb b :
  rb_wf rb -> WriteByteRingBuffer rb b = WriteRingBuffer rb [b] 1.
Proof.
  intros Hwf. pose proof (Count_range rb Hwf) as HC.
  pose proof (FreeSpace_eq rb Hwf) as HF. pose proof (wf_len rb Hwf) as Hl.
  pose proof (wf_cap rb Hwf) as Hc.
  rewrite WriteByteRingBuffer_spec by done.
  unfold WriteRingBuffer, IsFullRingBuffer, umod.
  destruct (Z.eqb_spec (CountRingBuffer rb) (Capacity rb)) as [Ef|Ef].
  { destruct (Capacity rb =? 0); [done|]. simpl.
    rewrite HF, Ef, Z.sub_diag. done. }
  destruct (Z.eqb_spec (Capacity rb) 0) as [E0|E0]; [lia|].
  assert (Hpos : 0 < Capacity rb) by lia.
  pose proof (Z.mod_pos_bound (WriteIndex rb) (Capacity rb) Hpos) as HI.
  set (Index := WriteIndex rb mod Capacity rb) in *.
  rewrite (Z.min_r (FreeSpaceRingBuffer rb) 1) by lia. simpl.
  rewrite (wrap_small (Capacity rb - Index)) by lia.
  destruct (Z.leb_spec 1 (Capacity rb - Index)); [|lia].
  rewrite memcpy_Some by (unfold zlen in *; simpl; lia). simpl.
  replace (Z.to_nat (Index + 1)) with (S (Z.to_nat Index)) by lia.
  rewrite <- insert_take_drop by (unfold zlen in Hl; lia). done.
Qed.

Lemma ReadByte_as_Read rb Data :
  rb_wf rb ->
  ReadRingBuffer rb [Data] 1
  = (fun r => (r.1.1, [r.1.2], r.2)) <$> ReadByteRingBuffer rb Data.
Proof.
  intros Hwf. pose proof (Count_range rb Hwf) as HC.
  pose proof (wf_len rb Hwf) as Hl. pose proof (wf_cap rb Hwf) as Hc.
  destruct (IsEmptyRingBuffer rb) eqn:He.
  - rewrite ReadByteRingBuffer_empty by done. simpl.
    unfold IsEmptyRingBuffer in He. apply Z.eqb_eq in He.
    unfold ReadRingBuffer, umod. destruct (Capacity rb =? 0); [done|].
    simpl. by rewrite He.
  - destruct (ReadByteRingBuffer_nonempty rb Data Hwf He) as (b & Hb & ->).
    simpl. unfold IsEmptyRingBuffer in He. apply Z.eqb_neq in He.
    unfold ReadRingBuffer, umod.
    destruct (Z.eqb_spec (Capacity rb) 0) as [E0|E0]; [lia|]. simpl.
    assert (Hpos : 0 < Capacity rb) by lia.
    pose proof (Z.mod_pos_bound (ReadIndex rb) (Capacity rb) Hpos) as HI.
    set (Index := ReadIndex rb mod Capacity rb) in *.
    rewrite (Z.min_r (CountRingBuffer rb) 1) by lia. simpl.
    rewrite (wrap_small (Capacity rb - Index)) by lia.
    destruct (Z.leb_spec 1 (Capacity rb - Index)); [|lia].
    rewrite memcpy_Some by (unfold zlen in *; simpl; lia). simpl.
    unfold load in Hb. destruct (Z.leb_spec 0 Index); [|lia].
    rewrite (drop_S _ _ _ Hb). done.
Qed.

Lemma step_WriteByte rb b :
  rb_wf rb -> step rb (WriteByte b) = step rb (Write [b]).
Proof. intros Hwf. simpl. by rewrite WriteByte_as_Write. Qed.

Lemma step_ReadByte rb : rb_wf rb -> step rb ReadByte = step rb (Read 1).
Proof.
  intros Hwf. simpl. change (replicate (Z.to_nat 1) x00) with [x00].
  rewrite ReadByte_as_Read by done.
  destruct (IsEmptyRingBuffer rb) eqn:He.
  - by rewrite ReadByteRingBuffer_empty.
  - destruct (ReadByteRingBuffer_nonempty rb x00 Hwf He) as (b & Hb & ->).
    done.
Qed.

(** ** Runs of the ring buffer against runs of the reference *)

Lemma Unbounded_step_mono f o :
  Unbounded.writeCursor f <= Unbounded.writeCursor (Unbounded.step f o).1.
Proof.
  destruct o; simpl; unfold Unbounded.writeCursor; simpl;
    rewrite ?zlen_app; try lia.
  all: match goal with |- context [zlen (take ?n ?l)] =>
         pose proof (zlen_nonneg (take n l)) end; lia.
Qed.

Lemma Unbounded_run_mono ops f :
  Unbounded.writeCursor f <= Unbounded.writeCursor (Unbounded.run f ops).1.
Proof.
  revert f. induction ops as [|o ops IH]; intros f; simpl; [lia|].
  pose proof (Unbounded_step_mono f o) as H1.
  destruct (Unbounded.step f o) as [f1 r] eqn:E1. simpl in H1.
  specialize (IH f1). destruct (Unbounded.run f1 ops) as [f2 rs]. simpl in *.
  lia.
Qed.

Lemma sim_step rb f top o :
  sim rb f -> linear (Capacity rb) top -> op_ok o = true ->
  Unbounded.writeCursor (Unbounded.step f o).1 <= top ->
  exists rb',
    step rb o = Some (rb', (Unbounded.step f o).2)
    /\ sim rb' (Unbounded.step f o).1.
Proof.
  intros Hsim Hlin Hok Htop.
  assert (HW : forall Data,
    Unbounded.writeCursor (Unbounded.step f (Write Data)).1 <= top ->
    exists rb', step rb (Write Data)
                = Some (rb', (Unbounded.step f (Write Data)).2)
                /\ sim rb' (Unbounded.step f (Write Data)).1).
  { intros Data Ht. simpl in *.
    destruct (sim_write_step rb f top Data (zlen Data) Hsim Hlin)
      as (rb' & E & Hs); [pose proof (zlen_nonneg Data); lia|done|].
    exists rb'. rewrite E. done. }
  assert (HR : forall Size, 0 <= Size ->
    exists rb', step rb (Read Size)
                = Some (rb', (Unbounded.step f (Read Size)).2)
                /\ sim rb' (Unbounded.step f (Read Size)).1).
  { intros Size HS. simpl in *.
    pose proof (Unbounded_step_mono f o).
    destruct (sim_read_step rb f top (replicate (Z.to_nat Size) x00) Size
                Hsim Hlin) as (rb' & out & E & Hd & Hs);
      [lia|rewrite zlen_replicate; lia|].
    exists rb'. rewrite E. simpl. rewrite Hd. done. }
  destruct o as [Data|b|Size|].
  - by apply HW.
  - rewrite step_WriteByte by apply Hsim. by apply HW.
  - simpl in Hok. apply HR. destruct (Z.leb_spec 0 Size); [done|done].
  - rewrite step_ReadByte by apply Hsim. apply HR. lia.
Qed.

Lemma sim_run ops rb f top :
  sim rb f -> linear (Capacity rb) top -> forallb op_ok ops = true ->
  Unbounded.writeCursor (Unbounded.run f ops).1 <= top ->
  exists rb',
    run rb ops = Some (rb', (Unbounded.run f ops).2)
    /\ sim rb' (Unbounded.run f ops).1.
Proof.
  revert rb f. induction ops as [|o ops IH]; intros rb f Hsim Hlin Hok Htop.
  { exists rb. done. }
  simpl in Hok. apply andb_true_iff in Hok as [Hok1 Hok2].
  simpl in Htop |- *.
  destruct (Unbounded.step f o) as [f1 r] eqn:E1.
  pose proof (Unbounded_run_mono ops f1) as Hmono.
  destruct (Unbounded.run f1 ops) as [f2 rs] eqn:E2. simpl in *.
  destruct (sim_step rb f top o Hsim Hlin Hok1) as (rb1 & Es & Hs1).
  { rewrite E1. simpl. lia. }
  rewrite E1 in Es, Hs1. simpl in Es, Hs1. rewrite Es. simpl.
  assert (Hcap : Capacity rb1 = Capacity rb).
  { rewrite (sim_cap _ _ Hs1), (sim_cap _ _ Hsim).
    replace f1 with (Unbounded.step f o).1 by (by rewrite E1).
    destruct o; done. }
  destruct (IH rb1 f1 Hs1) as (rb2 & Er & Hs2).
  { by rewrite Hcap. } { done. } { by rewrite E2. }
  rewrite E2 in Er, Hs2. simpl in Er, Hs2. rewrite Er. simpl.
  exists rb2. done.
Qed.

(** ** Conservation *)

Lemma supplied_cons o ops : supplied (o :: ops) = supplied [o] ++ supplied ops.
Proof. destruct o; simpl; rewrite ?app_nil_r; done. Qed.

Lemma delivered_cons r rs : delivered (r :: rs) = delivered [r] ++ delivered rs.
Proof. destruct r; simpl; rewrite ?app_nil_r; done. Qed.

Lemma take_zlen (l : list BYTE) : take (Z.to_nat (zlen l)) l = l.
Proof. unfold zlen. rewrite Nat2Z.id. apply firstn_all. Qed.

(** A fitting call on the reference: the stream grows by the bytes
    supplied, and the bytes delivered extend the part already read. *)
Lemma ref_step_conserves rb f o :
  sim rb f -> fits rb o = true -> op_ok o = true ->
  Unbounded.stream (Unbounded.step f o).1
  = Unbounded.stream f ++ supplied [o]
  /\ take (Z.to_nat (Unbounded.readCursor (Unbounded.step f o).1))
          (Unbounded.stream (Unbounded.step f o).1)
     = take (Z.to_nat (Unbounded.readCursor f)) (Unbounded.stream f)
       ++ delivered [(Unbounded.step f o).2].
Proof.
  intros Hsim Hfit Hok. pose proof (sim_order _ _ Hsim) as Hord.
  pose proof (sim_FreeSpace _ _ Hsim) as HF.
  pose proof (sim_Count _ _ Hsim) as HC.
  pose proof (Count_range _ (sim_wf _ _ Hsim)) as HCr.
  unfold Unbounded.writeCursor in *.
  assert (Hread : forall Size, 0 <= Size ->
    Unbounded.stream (Unbounded.step f (Read Size)).1
    = Unbounded.stream f ++ supplied [Read Size]
    /\ take (Z.to_nat (Unbounded.readCursor (Unbounded.step f (Read Size)).1))
            (Unbounded.stream (Unbounded.step f (Read Size)).1)
       = take (Z.to_nat (Unbounded.readCursor f)) (Unbounded.stream f)
         ++ delivered [(Unbounded.step f (Read Size)).2]).
  { intros Size HS. simpl. rewrite !app_nil_r. split; [done|].
    unfold Unbounded.Occupancy, Unbounded.writeCursor.
    rewrite take_take_drop. f_equal. lia. }
  destruct o as [Data|b|Size|]; simpl in Hfit, Hok.
  - simpl. apply Z.leb_le in Hfit. rewrite HF in Hfit.
    rewrite Z.min_l by done. rewrite take_zlen, !app_nil_r. split; [done|].
    apply take_app_le. unfold zlen in *. lia.
  - simpl. apply Z.leb_le in Hfit. rewrite HF in Hfit.
    rewrite Z.min_l by done. simpl. rewrite !app_nil_r. split; [done|].
    apply take_app_le. unfold zlen in *. lia.
  - apply Hread. destruct (Z.leb_spec 0 Size); [done|done].
  - apply (Hread 1). lia.
Qed.

Lemma sim_pending rb f top :
  sim rb f -> linear (Capacity rb) top -> Unbounded.writeCursor f <= top ->
  pending rb = drop (Z.to_nat (Unbounded.readCursor f)) (Unbounded.stream f).
Proof.
  intros Hsim Hlin Htop. pose proof (sim_Count _ _ Hsim) as HC.
  pose proof (Count_range _ (sim_wf _ _ Hsim)) as HCr.
  pose proof (wf_cap _ (sim_wf _ _ Hsim)) as Hcap.
  pose proof (sim_order _ _ Hsim) as Hord.
  destruct (sim_step rb f top (Read (CountRingBuffer rb)) Hsim Hlin)
    as (rb' & E & _).
  { simpl. destruct (Z.leb_spec 0 (CountRingBuffer rb)),
      (Z.ltb_spec (CountRingBuffer rb) SIZE_MOD); try lia; done. }
  { done. }
  unfold pending. rewrite E. simpl.
  apply take_ge. rewrite length_drop.
  unfold Unbounded.Occupancy, Unbounded.writeCursor, zlen in *. lia.
Qed.

Lemma conservation_run ops rb f top :
  sim rb f -> linear (Capacity rb) top ->
  forallb op_ok ops = true -> no_overflow rb ops = true ->
  Unbounded.writeCursor f + zlen (supplied ops) <= top ->
  exists rb' rs f',
    run rb ops = Some (rb', rs) /\ sim rb' f'
    /\ Capacity rb' = Capacity rb
    /\ Unbounded.writeCursor f' <= top
    /\ Unbounded.stream f' = Unbounded.stream f ++ supplied ops
    /\ take (Z.to_nat (Unbounded.readCursor f')) (Unbounded.stream f')
       = take (Z.to_nat (Unbounded.readCursor f)) (Unbounded.stream f)
         ++ delivered rs.
Proof.
  revert rb f.
  induction ops as [|o ops IH]; intros rb f Hsim Hlin Hok Hno Htop.
  { exists rb, [], f. change (zlen (supplied [])) with 0 in Htop.
    simpl. rewrite !app_nil_r. split; [done|]. split; [done|].
    split; [done|]. split; [lia|done]. }
  simpl in Hok. apply andb_true_iff in Hok as [Hok1 Hok2].
  simpl in Hno. apply andb_true_iff in Hno as [Hfit Hno].
  rewrite supplied_cons, zlen_app in Htop.
  destruct (ref_step_conserves rb f o Hsim Hfit Hok1) as [Hst Htk].
  assert (Hw1 : Unbounded.writeCursor (Unbounded.step f o).1
                = Unbounded.writeCursor f + zlen (supplied [o])).
  { unfold Unbounded.writeCursor. by rewrite Hst, zlen_app. }
  pose proof (zlen_nonneg (supplied ops)).
  destruct (sim_step rb f top o Hsim Hlin Hok1) as (rb1 & Es & Hs1); [lia|].
  rewrite Es in Hno.
  assert (Hcap : Capacity rb1 = Capacity rb).
  { rewrite (sim_cap _ _ Hs1), (sim_cap _ _ Hsim). destruct o; done. }
  destruct (IH rb1 (Unbounded.step f o).1 Hs1)
    as (rb2 & rs & f2 & Er & Hs2 & Hc2 & Ht2 & Hst2 & Htk2);
    [by rewrite Hcap|done|done|lia|].
  exists rb2, ((Unbounded.step f o).2 :: rs), f2.
  split; [simpl; rewrite Es; simpl; rewrite Er; done|].
  split; [done|]. split; [by rewrite Hc2|]. split; [done|]. split.
  - rewrite Hst2, Hst, (supplied_cons o ops). by rewrite app_assoc.
  - rewrite Htk2, Htk, (delivered_cons _ rs). by rewrite app_assoc.
Qed.

Lemma wf_check_ok rb : wf_check rb = true -> rb_wf rb.
Proof.
  unfold wf_check. rewrite !andb_true_iff.
  intros [[[[[[[H1 H2] H3] H4] H5] H6] H7] H8].
  split; try split; try (by apply Z.leb_le); try (by apply Z.ltb_lt).
  by apply Z.eqb_eq.
Qed.

(** * The claims *)

(** C2.  Occupancy invariant: in every state reachable from a freshly
    initialised buffer by [WriteRingBuffer], [ReadRingBuffer],
    [WriteByteRingBuffer] and [ReadByteRingBuffer] calls, the occupancy
    [WriteIndex - ReadIndex] (a [size_t] difference) lies between 0 and the
    capacity, and occupancy plus free space is the capacity.  Reachability
    is closed under the four operations, so each of them keeps the
    invariant. *)
Theorem occupancy_invariant malloc capacity rb :
  malloc_ok malloc -> 0 <= capacity < SIZE_MOD ->
  reachable malloc capacity rb ->
  CountRingBuffer rb = wrap (WriteIndex rb - ReadIndex rb)
  /\ 0 <= CountRingBuffer rb <= Capacity rb
  /\ CountRingBuffer rb + FreeSpaceRingBuffer rb = Capacity rb.
Proof.
  intros Hm Hc Hr. pose proof (reachable_wf _ _ _ Hm Hc Hr) as Hwf.
  pose proof (Count_range rb Hwf). rewrite (FreeSpace_eq rb Hwf).
  split; [done|]. split; lia.
Qed.

Lemma occupancy_invariant_witness :
  reachable filled_malloc 15
    {| Buffer := hello ++ [xff]; Capacity := 15;
       ReadIndex := 0; WriteIndex := 14 |}
  /\ CountRingBuffer {| Buffer := hello ++ [xff]; Capacity := 15;
                        ReadIndex := 0; WriteIndex := 14 |} = 14
  /\ 0 <= 14 <= 15
  /\ 14 + FreeSpaceRingBuffer {| Buffer := hello ++ [xff]; Capacity := 15;
                                 ReadIndex := 0; WriteIndex := 14 |} = 15.
Proof.
  assert (Hr : reachable filled_malloc 15
                 {| Buffer := hello ++ [xff]; Capacity := 15;
                    ReadIndex := 0; WriteIndex := 14 |}).
  { apply (reach_Write filled_malloc 15
             (InitializeRingBuffer filled_malloc 15).1 hello 14 _ 14).
    - apply reach_init.
    - rewrite SIZE_MOD_val. lia.
    - vm_compute. reflexivity. }
  split; [exact Hr|].
  exact (occupancy_invariant filled_malloc 15 _ filled_malloc_ok
           ltac:(rewrite SIZE_MOD_val; lia) Hr).
Defined.

(** C3.  Write postcondition: on a well-formed buffer of capacity > 0,
    [WriteRingBuffer] given [Size] bytes returns
    [bytesWritten = min(Size, FreeSpace)], leaves [ReadIndex] alone, advances
    [WriteIndex] by [bytesWritten] (in [size_t]; the occupancy grows by
    exactly that), and stores the first [bytesWritten] bytes from slot
    [WriteIndex mod Capacity] on: segment 1 runs up to the end of the
    storage, segment 2 (the remainder) starts at slot 0; every other slot
    keeps its byte. *)
Theorem Write_postcondition rb Data Size :
  rb_wf rb -> 0 < Capacity rb -> zlen Data = Size ->
  exists blk,
    WriteRingBuffer rb Data Size
    = Some ({| Buffer := blk; Capacity := Capacity rb;
               ReadIndex := ReadIndex rb;
               WriteIndex :=
                 wrap (WriteIndex rb + Z.min Size (FreeSpaceRingBuffer rb)) |},
            Z.min Size (FreeSpaceRingBuffer rb))
    /\ zlen blk = Capacity rb
    /\ CountRingBuffer
         {| Buffer := blk; Capacity := Capacity rb;
            ReadIndex := ReadIndex rb;
            WriteIndex :=
              wrap (WriteIndex rb + Z.min Size (FreeSpaceRingBuffer rb)) |}
       = CountRingBuffer rb + Z.min Size (FreeSpaceRingBuffer rb)
    /\ forall j, 0 <= j < Capacity rb ->
         load blk j
         = if (WriteIndex rb mod Capacity rb <=? j)
              && (j <? WriteIndex rb mod Capacity rb
                       + Z.min Size (FreeSpaceRingBuffer rb))
           then load Data (j - WriteIndex rb mod Capacity rb)
           else if j <? Z.min Size (FreeSpaceRingBuffer rb)
                        - (Capacity rb - WriteIndex rb mod Capacity rb)
           then load Data (Capacity rb - WriteIndex rb mod Capacity rb + j)
           else load (Buffer rb) j.
Proof.
  intros Hwf Hpos HData.
  pose proof (Count_range rb Hwf) as HC. pose proof (FreeSpace_eq rb Hwf) as HF.
  pose proof (wf_cap rb Hwf) as Hc. pose proof (zlen_nonneg Data) as HD.
  rewrite (Z.min_comm Size).
  destruct (WriteRingBuffer_spec rb Data Size Hwf) as (blk & E & Hblk & Hb);
    [lia|lia|].
  set (n := Z.min (FreeSpaceRingBuffer rb) Size) in *.
  exists blk. split; [exact E|]. split; [done|]. split.
  { pose proof (Count_add_WriteIndex rb blk n) as HCn.
    rewrite wrap_small in HCn by lia. exact HCn. }
  intros j Hj. rewrite (Hb j Hj), (ring_offset _ _ _ Hpos Hj).
  pose proof (Z.mod_pos_bound (WriteIndex rb) (Capacity rb) Hpos) as HI.
  set (Index := WriteIndex rb mod Capacity rb) in *.
  destruct (Z.leb_spec Index j); simpl.
  - destruct (Z.ltb_spec (j - Index) n), (Z.ltb_spec j (Index + n));
      try lia; [done|].
    destruct (Z.ltb_spec j (n - (Capacity rb - Index))); [lia|done].
  - destruct (Z.ltb_spec (j - Index + Capacity rb) n),
      (Z.ltb_spec j (n - (Capacity rb - Index))); try lia; [|done].
    f_equal. lia.
Qed.

Lemma Write_postcondition_witness :
  exists blk,
    WriteRingBuffer (mkRB (replicate 15 xff) 15 14 14) hello 14
    = Some (mkRB blk 15 14 28, 14)
    /\ load blk 14 = Some x48 /\ load blk 0 = Some x65
    /\ load blk 12 = Some x0a /\ load blk 13 = Some xff.
Proof.
  destruct (Write_postcondition (mkRB (replicate 15 xff) 15 14 14) hello 14)
    as (blk & E & _ & _ & Hb).
  - apply wf_check_ok. vm_compute. reflexivity.
  - simpl. lia.
  - reflexivity.
  - exists blk. split; [exact E|].
    pose proof (Hb 14 ltac:(simpl; lia)) as H14.
    pose proof (Hb 0 ltac:(simpl; lia)) as H0.
    pose proof (Hb 12 ltac:(simpl; lia)) as H12.
    pose proof (Hb 13 ltac:(simpl; lia)) as H13.
    auto.
Defined.

(** C5.  Saturation: on a well-formed buffer, a [WriteRingBuffer] asking
    for more than the free space returns exactly the free space and leaves
    the buffer full; a [ReadRingBuffer] asking for more than the occupancy
    returns exactly the occupancy and leaves the buffer empty. *)
Theorem saturation rb Data Size :
  rb_wf rb ->
  (FreeSpaceRingBuffer rb < Size -> FreeSpaceRingBuffer rb <= zlen Data ->
   exists rb',
     WriteRingBuffer rb Data Size = Some (rb', FreeSpaceRingBuffer rb)
     /\ IsFullRingBuffer rb' = true)
  /\ (CountRingBuffer rb < Size -> CountRingBuffer rb <= zlen Data ->
      exists rb' out,
        ReadRingBuffer rb Data Size = Some (rb', out, CountRingBuffer rb)
        /\ IsEmptyRingBuffer rb' = true).
Proof.
  intros Hwf. pose proof (Count_range rb Hwf) as HC.
  pose proof (FreeSpace_eq rb Hwf) as HF. pose proof (wf_cap rb Hwf) as Hc.
  split.
  - intros HS HD.
    destruct (WriteRingBuffer_spec rb Data Size Hwf) as (blk & E & Hblk & _);
      [lia|lia|].
    rewrite Z.min_l in E by lia.
    eexists. split; [exact E|].
    unfold IsFullRingBuffer. rewrite Count_add_WriteIndex. simpl.
    rewrite wrap_small by lia. apply Z.eqb_eq. lia.
  - intros HS HD.
    destruct (ReadRingBuffer_spec rb Data Size Hwf) as (out & E & _ & _);
      [lia|lia|].
    rewrite Z.min_l in E by lia.
    eexists _, out. split; [exact E|].
    unfold IsEmptyRingBuffer. rewrite Count_add_ReadIndex, Z.sub_diag.
    reflexivity.
Qed.

Lemma saturation_witness :
  (exists rb',
     WriteRingBuffer (mkRB (replicate 15 xff) 15 28 28)
       (hello ++ replicate 6 x2a) 20 = Some (rb', 15)
     /\ IsFullRingBuffer rb' = true)
  /\ (exists rb' out,
        ReadRingBuffer (mkRB (replicate 15 x2a) 15 42 43)
          (replicate 100 x00) 100 = Some (rb', out, 1)
        /\ IsEmptyRingBuffer rb' = true).
Proof.
  split.
  - apply (saturation (mkRB (replicate 15 xff) 15 28 28)
             (hello ++ replicate 6 x2a) 20).
    + apply wf_check_ok. vm_compute. reflexivity.
    + vm_compute. reflexivity.
    + vm_compute. discriminate.
  - apply (saturation (mkRB (replicate 15 x2a) 15 42 43)
             (replicate 100 x00) 100).
    + apply wf_check_ok. vm_compute. reflexivity.
    + vm_compute. reflexivity.
    + vm_compute. discriminate.
Defined.

(** Zero capacity in the guarded revisions: a buffer initialised with
    capacity 0 stays the zeroed record whatever is called on it; it is empty
    and full at once, and every [WriteRingBuffer], [WriteByteRingBuffer],
    [ReadRingBuffer] and [ReadByteRingBuffer] call is defined (no modulus by
    zero is taken), returns 0 and changes neither the buffer nor the
    caller's block. *)
Theorem zero_capacity_degenerate malloc rb :
  reachable malloc 0 rb ->
  rb = zeroed
  /\ IsEmptyRingBuffer rb = true /\ IsFullRingBuffer rb = true
  /\ (forall Data Size, WriteRingBuffer rb Data Size = Some (rb, 0))
  /\ (forall Data, WriteByteRingBuffer rb Data = Some (rb, 0))
  /\ (forall Data Size, ReadRingBuffer rb Data Size = Some (rb, Data, 0))
  /\ (forall Data, ReadByteRingBuffer rb Data = Some (rb, Data, 0)).
Proof.
  intros Hr.
  assert (Hz : rb = zeroed).
  { induction Hr as
      [ | rb Data Size rb' n _ IH HS E | rb b rb' n _ IH E
        | rb Data Size rb' out n _ IH HS E | rb b rb' b' n _ IH E ];
      [reflexivity|subst rb; by injection E as <- _ ..]. }
  subst rb. repeat split.
Qed.

Lemma zero_capacity_degenerate_witness :
  reachable filled_malloc 0 zeroed
  /\ WriteRingBuffer zeroed hello 13 = Some (zeroed, 0)
  /\ WriteByteRingBuffer zeroed x0a = Some (zeroed, 0)
  /\ ReadByteRingBuffer zeroed x00 = Some (zeroed, x00, 0)
  /\ ReadRingBuffer zeroed (replicate 15 x00) 256
     = Some (zeroed, replicate 15 x00, 0).
Proof.
  assert (Hr : reachable filled_malloc 0 zeroed)
    by exact (reach_init filled_malloc 0).
  destruct (zero_capacity_degenerate filled_malloc zeroed Hr)
    as (_ & _ & _ & HW & HWB & HR & HRB).
  split; [exact Hr|]. split; [apply HW|]. split; [apply HWB|].
  split; [apply HRB|apply HR].
Defined.

(** Construction in the guarded revisions.  The result differs from the
    requested capacity, that is the construction fails, exactly when the
    capacity is positive and [malloc] fails; the record is then left zeroed
    and the result is 0.  For capacity 0 the construction succeeds whatever
    [malloc] would answer and asks [malloc] for nothing.  Whenever the
    result is the requested capacity both cursors are 0 and the stored
    capacity is the requested one. *)
Theorem Initialize_guarded_semantics malloc capacity :
  0 <= capacity ->
  (InitializeRingBuffer_traced malloc capacity).1
  = InitializeRingBuffer malloc capacity
  /\ ((InitializeRingBuffer malloc capacity).2 <> capacity
      <-> 0 < capacity /\ malloc capacity = None)
  /\ (0 < capacity -> malloc capacity = None ->
      InitializeRingBuffer malloc capacity = (zeroed, 0))
  /\ (capacity = 0 ->
      forall malloc',
        InitializeRingBuffer_traced malloc' capacity = (zeroed, 0, []))
  /\ ((InitializeRingBuffer malloc capacity).2 = capacity ->
      ReadIndex (InitializeRingBuffer malloc capacity).1 = 0
      /\ WriteIndex (InitializeRingBuffer malloc capacity).1 = 0
      /\ Capacity (InitializeRingBuffer malloc capacity).1 = capacity)
  /\ (forall n, In n (InitializeRingBuffer_traced malloc capacity).2 ->
      n = capacity /\ 0 < capacity).
Proof.
  intros Hc. unfold InitializeRingBuffer_traced, InitializeRingBuffer.
  destruct (Z.ltb_spec 0 capacity) as [Hpos|Hz].
  - destruct (malloc capacity) as [blk|] eqn:E; simpl.
    + split; [done|]. split; [split; [done|by intros [_ ?]]|].
      split; [done|]. split; [lia|]. split; [done|].
      intros n [<-|[]]. done.
    + split; [done|]. split; [split; [done|lia]|].
      split; [done|]. split; [lia|]. split; [lia|].
      intros n [<-|[]]. done.
  - assert (capacity = 0) as -> by lia. simpl.
    split; [done|]. split; [split; [done|lia]|].
    split; [lia|]. split; [done|]. split; [done|]. intros n [].
Qed.

Lemma Initialize_guarded_semantics_witness :
  InitializeRingBuffer_traced filled_malloc 15
  = ({| Buffer := replicate 15 xff; Capacity := 15;
        ReadIndex := 0; WriteIndex := 0 |}, 15, [15])
  /\ ((InitializeRingBuffer filled_malloc 15).2 <> 15
      <-> 0 < 15 /\ filled_malloc 15 = None).
Proof.
  destruct (Initialize_guarded_semantics filled_malloc 15 ltac:(lia))
    as (_ & H2 & _).
  split; [reflexivity|exact H2].
Defined.

(** C8.  Idempotent emptiness: on an empty buffer, [ReadRingBuffer] and
    [ReadByteRingBuffer] return 0 and hand back the buffer (cursors and
    storage) and the caller's block as they were; so does any sequence of
    such reads, however long. *)
Theorem empty_reads_idempotent rb :
  IsEmptyRingBuffer rb = true ->
  (forall Data Size, 0 <= Size ->
     ReadRingBuffer rb Data Size = Some (rb, Data, 0))
  /\ (forall Data, ReadByteRingBuffer rb Data = Some (rb, Data, 0))
  /\ (forall ops, forallb is_read ops = true -> forallb op_ok ops = true ->
        run rb ops = Some (rb, map (fun _ => Delivered []) ops)).
Proof.
  intros He.
  assert (HR : forall Data Size, 0 <= Size ->
            ReadRingBuffer rb Data Size = Some (rb, Data, 0)).
  { intros Data Size HS. unfold ReadRingBuffer, umod.
    destruct (Capacity rb =? 0); [done|]. cbn [mbind option_bind].
    unfold IsEmptyRingBuffer in He. apply Z.eqb_eq in He.
    rewrite He, Z.min_l by done. done. }
  assert (HB : forall Data, ReadByteRingBuffer rb Data = Some (rb, Data, 0))
    by (intros Data; by apply ReadByteRingBuffer_empty).
  split; [exact HR|]. split; [exact HB|].
  induction ops as [|o ops IH]; [done|].
  simpl. rewrite !andb_true_iff. intros [Ho Hops] [Hok Hoks].
  specialize (IH Hops Hoks).
  destruct o as [| |Size|]; try done; simpl.
  - simpl in Hok. rewrite HR by (destruct (Z.leb_spec 0 Size); done).
    simpl. rewrite IH. done.
  - rewrite HB. simpl. rewrite IH. done.
Qed.

Lemma empty_reads_idempotent_witness :
  ReadRingBuffer (mkRB hello 14 28 28) (replicate 4 x00) 4
  = Some (mkRB hello 14 28 28, replicate 4 x00, 0)
  /\ run (mkRB hello 14 28 28) [ReadByte; Read 100; ReadByte]
     = Some (mkRB hello 14 28 28, [Delivered []; Delivered []; Delivered []]).
Proof.
  destruct (empty_reads_idempotent (mkRB hello 14 28 28) ltac:(reflexivity))
    as (HR & _ & Hrun).
  split.
  - apply HR. lia.
  - apply (Hrun [ReadByte; Read 100; ReadByte]); reflexivity.
Defined.

(** C10.  A failed [ReadByteRingBuffer] leaves the output alone: on an
    empty buffer it returns 0 and the byte at the caller's location is the
    byte that was there before the call. *)
Theorem failed_ReadByte_keeps_output rb Data :
  IsEmptyRingBuffer rb = true ->
  exists rb', ReadByteRingBuffer rb Data = Some (rb', Data, 0).
Proof.
  intros He. exists rb. unfold ReadByteRingBuffer. rewrite He. reflexivity.
Qed.

Lemma failed_ReadByte_keeps_output_witness :
  exists rb', ReadByteRingBuffer (mkRB hello 14 28 28) x2a = Some (rb', x2a, 0).
Proof.
  apply (failed_ReadByte_keeps_output (mkRB hello 14 28 28) x2a).
  reflexivity.
Defined.

(** ** Long runs: bytes passed through an otherwise empty buffer *)

Lemma run_app ops1 ops2 rb :
  run rb (ops1 ++ ops2)
  = '(rb1, rs1) ← run rb ops1;
    '(rb2, rs2) ← run rb1 ops2;
    Some (rb2, rs1 ++ rs2).
Proof.
  revert rb. induction ops1 as [|o ops1 IH]; intros rb; simpl.
  - destruct (run rb ops2) as [[rb2 rs2]|]; done.
  - destruct (step rb o) as [[rb1 r]|]; simpl; [|done].
    rewrite IH. destruct (run rb1 ops1) as [[rb1' rs1]|]; simpl; [|done].
    destruct (run rb1' ops2) as [[rb2 rs2]|]; done.
Qed.

Lemma no_overflow_app ops1 ops2 rb rb1 rs1 :
  run rb ops1 = Some (rb1, rs1) ->
  no_overflow rb (ops1 ++ ops2) = no_overflow rb ops1 && no_overflow rb1 ops2.
Proof.
  revert rb rs1. induction ops1 as [|o ops1 IH]; intros rb rs1; simpl.
  - by intros [= <- _].
  - destruct (step rb o) as [[rb' r]|]; simpl; [|done].
    destruct (run rb' ops1) as [[rb1' rs1']|] eqn:E; simpl; [|done].
    intros [= <- _]. rewrite (IH _ _ E). by rewrite andb_assoc.
Qed.

Lemma supplied_app ops1 ops2 :
  supplied (ops1 ++ ops2) = supplied ops1 ++ supplied ops2.
Proof.
  induction ops1 as [|o ops1 IH]; [done|].
  rewrite <- app_comm_cons, supplied_cons, IH, (supplied_cons o ops1).
  by rewrite app_assoc.
Qed.

Lemma delivered_app rs1 rs2 :
  delivered (rs1 ++ rs2) = delivered rs1 ++ delivered rs2.
Proof.
  induction rs1 as [|r rs1 IH]; [done|].
  rewrite <- app_comm_cons, delivered_cons, IH, (delivered_cons r rs1).
  by rewrite app_assoc.
Qed.

Section Churn.

Variables (c : nat) (x : BYTE).
Hypothesis c_pos : (0 < c)%nat.
Hypothesis c_size : Z.of_nat c < SIZE_MOD.

Lemma idle_Count k : CountRingBuffer (idle c x k) = 0.
Proof. unfold CountRingBuffer; simpl. by rewrite Z.sub_diag. Qed.

Lemma idle_wf k : 0 <= k < SIZE_MOD -> rb_wf (idle c x k).
Proof.
  intros Hk. split; rewrite ?idle_Count; simpl; try lia.
  unfold zlen. by rewrite length_replicate.
Qed.

Lemma churn_once k :
  0 <= k < SIZE_MOD ->
  run (idle c x k) [WriteByte x; ReadByte]
  = Some (idle c x (wrap (k + 1)), [Written 1; Delivered [x]])
  /\ fits (idle c x k) (WriteByte x) = true.
Proof.
  intros Hk. pose proof SIZE_MOD_pos as HM.
  pose proof (Z.mod_pos_bound k (Z.of_nat c) ltac:(lia)) as HI.
  set (rb1 := mkRB (replicate c x) (Z.of_nat c) k (wrap (k + 1))).
  assert (E1 : WriteByteRingBuffer (idle c x k) x = Some (rb1, 1)).
  { rewrite WriteByteRingBuffer_spec by (by apply idle_wf).
    unfold IsFullRingBuffer. rewrite idle_Count.
    change (Capacity (idle c x k)) with (Z.of_nat c).
    rewrite (proj2 (Z.eqb_neq 0 (Z.of_nat c))) by lia.
    change (Buffer (idle c x k)) with (replicate c x).
    by rewrite insert_replicate. }
  assert (HC1 : CountRingBuffer rb1 = 1).
  { unfold CountRingBuffer, rb1; simpl. rewrite wrap_sub_l.
    replace (k + 1 - k) with 1 by lia. apply wrap_small.
    rewrite SIZE_MOD_val. lia. }
  assert (Hwf1 : rb_wf rb1).
  { split; rewrite ?HC1; unfold rb1; simpl; try lia; try apply wrap_range.
    unfold zlen. by rewrite length_replicate. }
  assert (E2 : ReadByteRingBuffer rb1 x00
               = Some (idle c x (wrap (k + 1)), x, 1)).
  { destruct (ReadByteRingBuffer_nonempty rb1 x00 Hwf1) as (b & Hb & ->).
    { unfold IsEmptyRingBuffer. by rewrite HC1. }
    unfold rb1, load in Hb; simpl in Hb.
    destruct (Z.leb_spec 0 (k mod Z.of_nat c)); [|lia].
    rewrite lookup_replicate_2 in Hb by lia. by injection Hb as <-. }
  split.
  - simpl. rewrite E1. simpl. rewrite E2. done.
  - simpl. unfold FreeSpaceRingBuffer. rewrite idle_Count, Z.sub_0_r.
    change (Capacity (idle c x k)) with (Z.of_nat c).
    rewrite wrap_small by lia. apply Z.leb_le. lia.
Qed.

Lemma churn_run n k :
  0 <= k < SIZE_MOD ->
  run (idle c x k) (churn n x)
  = Some (idle c x (wrap (k + Z.of_nat n)), churn_trace n x)
  /\ no_overflow (idle c x k) (churn n x) = true.
Proof.
  revert k. induction n as [|n IH]; intros k Hk.
  { simpl. rewrite Z.add_0_r, wrap_small by done. done. }
  destruct (churn_once k Hk) as [E Hf].
  destruct (IH (wrap (k + 1)) (wrap_range _)) as [En Hn].
  rewrite wrap_add_l in En.
  replace (k + 1 + Z.of_nat n) with (k + Z.of_nat (S n)) in En by lia.
  change (churn (S n) x) with ([WriteByte x; ReadByte] ++ churn n x).
  change (churn_trace (S n) x)
    with ([Written 1; Delivered [x]] ++ churn_trace n x).
  split.
  - rewrite run_app, E. simpl. rewrite En. done.
  - rewrite (no_overflow_app _ _ _ _ _ E), Hn, andb_true_r.
    change (no_overflow (idle c x k) [WriteByte x; ReadByte])
      with (fits (idle c x k) (WriteByte x)
            && match step (idle c x k) (WriteByte x) with
               | Some (rb1, _) => no_overflow rb1 [ReadByte]
               | None => false
               end).
    rewrite Hf. simpl in E |- *.
    destruct (WriteByteRingBuffer (idle c x k) x) as [[rb1 m]|]; [|done].
    simpl in E |- *.
    destruct (ReadByteRingBuffer rb1 x00) as [[[rb2 b] m']|]; done.
Qed.

Lemma churn_supplied n : supplied (churn n x) = replicate n x.
Proof. induction n as [|n IH]; [done|]. simpl. by rewrite IH. Qed.

Lemma churn_delivered n : delivered (churn_trace n x) = replicate n x.
Proof. induction n as [|n IH]; [done|]. simpl. by rewrite IH. Qed.

Lemma churn_op_ok n : forallb op_ok (churn n x) = true.
Proof. induction n as [|n IH]; [done|]. simpl. exact IH. Qed.

(** Every such buffer is reached from the fresh one. *)
Lemma idle_reachable malloc n :
  malloc (Z.of_nat c) = Some (replicate c x) ->
  reachable malloc (Z.of_nat c) (idle c x (wrap (Z.of_nat n))).
Proof.
  intros Hm. induction n as [|n IH].
  - replace (idle c x (wrap (Z.of_nat 0)))
      with (InitializeRingBuffer malloc (Z.of_nat c)).1; [apply reach_init|].
    unfold InitializeRingBuffer. destruct (Z.ltb_spec 0 (Z.of_nat c)); [|lia].
    rewrite Hm. reflexivity.
  - destruct (churn_once (wrap (Z.of_nat n)) (wrap_range _)) as [E _].
    rewrite wrap_add_l in E.
    replace (Z.of_nat n + 1) with (Z.of_nat (S n)) in E by lia.
    simpl in E.
    destruct (WriteByteRingBuffer (idle c x (wrap (Z.of_nat n))) x)
      as [[rb1 m]|] eqn:E1; [|done]. simpl in E.
    destruct (ReadByteRingBuffer rb1 x00) as [[[rb2 b] m']|] eqn:E2; [|done].
    simpl in E. injection E as <- _ _.
    eapply reach_ReadByte; [|exact E2].
    eapply reach_WriteByte; [exact IH|exact E1].
Qed.

End Churn.

(** The same runs on the reference. *)

Lemma Unbounded_run_app ops1 ops2 f :
  Unbounded.run f (ops1 ++ ops2)
  = ((Unbounded.run (Unbounded.run f ops1).1 ops2).1,
     (Unbounded.run f ops1).2
     ++ (Unbounded.run (Unbounded.run f ops1).1 ops2).2).
Proof.
  revert f. induction ops1 as [|o ops1 IH]; intros f; simpl.
  - by destruct (Unbounded.run f ops2).
  - destruct (Unbounded.step f o) as [f1 r]. rewrite IH.
    destruct (Unbounded.run f1 ops1) as [f2 rs]. simpl.
    by destruct (Unbounded.run f2 ops2).
Qed.

Lemma Unbounded_churn_once (s : list BYTE) cap x :
  0 < cap ->
  Unbounded.run (Unbounded.mkFIFO s (zlen s) cap) [WriteByte x; ReadByte]
  = (Unbounded.mkFIFO (s ++ [x]) (zlen (s ++ [x])) cap,
     [Written 1; Delivered [x]]).
Proof.
  intros Hcap. simpl.
  unfold Unbounded.FreeSpace, Unbounded.Occupancy, Unbounded.writeCursor.
  simpl. rewrite Z.sub_diag, Z.sub_0_r, Z.min_l by lia. simpl.
  rewrite zlen_app. change (zlen [x]) with 1.
  replace (zlen s + 1 - zlen s) with 1 by lia. simpl.
  unfold zlen at 2. rewrite Nat2Z.id, drop_app_length. done.
Qed.

Lemma Unbounded_churn n (s : list BYTE) cap x :
  0 < cap ->
  Unbounded.run (Unbounded.mkFIFO s (zlen s) cap) (churn n x)
  = (Unbounded.mkFIFO (s ++ replicate n x) (zlen (s ++ replicate n x)) cap,
     churn_trace n x).
Proof.
  intros Hcap. revert s. induction n as [|n IH]; intros s.
  { simpl. by rewrite app_nil_r. }
  change (churn (S n) x) with ([WriteByte x; ReadByte] ++ churn n x).
  rewrite Unbounded_run_app, Unbounded_churn_once by done.
  cbn [fst snd]. rewrite IH. cbn [fst snd].
  rewrite <- app_assoc. done.
Qed.

Lemma Unbounded_run_cons o ops f :
  Unbounded.run f (o :: ops)
  = ((Unbounded.run (Unbounded.step f o).1 ops).1,
     (Unbounded.step f o).2 :: (Unbounded.run (Unbounded.step f o).1 ops).2).
Proof.
  cbn [Unbounded.run]. destruct (Unbounded.step f o) as [f1 r].
  cbn [fst snd]. by destruct (Unbounded.run f1 ops).
Qed.

Lemma Unbounded_step_Write_fits f Data :
  zlen Data <= Unbounded.FreeSpace f ->
  Unbounded.step f (Write Data)
  = (Unbounded.mkFIFO (Unbounded.stream f ++ Data) (Unbounded.readCursor f)
       (Unbounded.capacity f), Written (zlen Data)).
Proof.
  intros H. unfold Unbounded.step, Unbounded.write.
  rewrite Z.min_l by done. by rewrite take_zlen.
Qed.

Lemma Unbounded_step_Read_all (s t : list BYTE) cap Size :
  zlen t <= Size ->
  Unbounded.step (Unbounded.mkFIFO (s ++ t) (zlen s) cap) (Read Size)
  = (Unbounded.mkFIFO (s ++ t) (zlen (s ++ t)) cap, Delivered t).
Proof.
  intros H. unfold Unbounded.step, Unbounded.read, Unbounded.Occupancy,
    Unbounded.writeCursor. cbn [Unbounded.stream Unbounded.readCursor
    Unbounded.capacity]. rewrite zlen_app.
  replace (zlen s + zlen t - zlen s) with (zlen t) by lia.
  rewrite Z.min_r by done.
  replace (Z.to_nat (zlen s)) with (length s) by (unfold zlen; lia).
  by rewrite drop_app_length, take_zlen.
Qed.

Lemma Unbounded_burst (s : list BYTE) :
  (Unbounded.run (Unbounded.mkFIFO s (zlen s) 3) burst).2
  = [Written 2; Written 1; Delivered [x01; x02; x03]].
Proof.
  unfold burst. rewrite Unbounded_run_cons, Unbounded_step_Write_fits.
  2:{ unfold Unbounded.FreeSpace, Unbounded.Occupancy, Unbounded.writeCursor.
      cbn [Unbounded.stream Unbounded.readCursor Unbounded.capacity].
      change (zlen [x01; x02]) with 2. lia. }
  cbn [fst snd Unbounded.stream Unbounded.readCursor Unbounded.capacity].
  rewrite Unbounded_run_cons, Unbounded_step_Write_fits.
  2:{ unfold Unbounded.FreeSpace, Unbounded.Occupancy, Unbounded.writeCursor.
      cbn [Unbounded.stream Unbounded.readCursor Unbounded.capacity].
      rewrite zlen_app. change (zlen [x01; x02]) with 2.
      change (zlen [x03]) with 1. lia. }
  cbn [fst snd Unbounded.stream Unbounded.readCursor Unbounded.capacity].
  rewrite <- app_assoc.
  rewrite Unbounded_run_cons, Unbounded_step_Read_all.
  2:{ change (zlen ([x01; x02] ++ [x03])) with 3. lia. }
  reflexivity.
Qed.

Lemma Initialize_success malloc capacity rb :
  0 < capacity -> InitializeRingBuffer malloc capacity = (rb, capacity) ->
  rb = (InitializeRingBuffer malloc capacity).1 /\ Capacity rb = capacity.
Proof.
  intros Hc E. split; [by rewrite E|].
  unfold InitializeRingBuffer in E.
  destruct (Z.ltb_spec 0 capacity); [|lia].
  destruct (malloc capacity).
  - by injection E as <-.
  - injection E as _ E'. lia.
Qed.

(** C4, as amended.  Wraparound correctness: the ring buffer refines the
    unbounded reference.  From a buffer initialised with capacity > 0, a run
    of calls with [size_t] arguments is defined and every call returns what
    the never-wrapping reference returns (counts and bytes, writes that are
    cut short included), provided the positions written address the storage
    linearly: the capacity divides [2^64], or no more than [2^64] bytes are
    accepted in all.  Copies that straddle the end of the storage are
    covered. *)
Theorem wraparound_refinement malloc capacity rb ops :
  malloc_ok malloc -> 0 < capacity < SIZE_MOD ->
  InitializeRingBuffer malloc capacity = (rb, capacity) ->
  forallb op_ok ops = true ->
  linear capacity
    (Unbounded.writeCursor (Unbounded.run (Unbounded.create capacity) ops).1) ->
  refines rb ops.
Proof.
  intros Hm Hc Hinit Hok Hlin.
  destruct (Initialize_success _ _ _ (proj1 Hc) Hinit) as [-> Hcap].
  pose proof (sim_create malloc capacity Hm ltac:(lia)) as Hsim.
  rewrite Hcap in Hsim.
  destruct (sim_run ops _ _ _ Hsim ltac:(by rewrite Hcap) Hok (Z.le_refl _))
    as (rb' & E & _).
  exists rb'. by rewrite Hcap.
Qed.

Lemma wraparound_refinement_witness :
  refines (mkRB (replicate 15 xff) 15 0 0) main_ops.
Proof.
  apply (wraparound_refinement filled_malloc 15 _ main_ops filled_malloc_ok).
  - rewrite SIZE_MOD_val. lia.
  - reflexivity.
  - reflexivity.
  - right. vm_compute. discriminate.
Defined.

(** C1, as amended.  FIFO conservation: from a buffer initialised with
    capacity > 0, for every sequence of [WriteRingBuffer],
    [WriteByteRingBuffer], [ReadRingBuffer] and [ReadByteRingBuffer] calls in
    which no write asks for more than the free space, and in which the
    capacity divides [2^64] or at most [2^64] bytes are written in all, the
    run is defined and the bytes the reads returned, followed by the bytes
    still buffered, are the bytes the writes supplied, in order. *)
Theorem fifo_conservation malloc capacity rb ops :
  malloc_ok malloc -> 0 < capacity < SIZE_MOD ->
  InitializeRingBuffer malloc capacity = (rb, capacity) ->
  forallb op_ok ops = true -> no_overflow rb ops = true ->
  linear capacity (zlen (supplied ops)) ->
  conserved rb ops.
Proof.
  intros Hm Hc Hinit Hok Hno Hlin.
  destruct (Initialize_success _ _ _ (proj1 Hc) Hinit) as [-> Hcap].
  pose proof (sim_create malloc capacity Hm ltac:(lia)) as Hsim.
  destruct (conservation_run ops _ _ (zlen (supplied ops)) Hsim
              ltac:(by rewrite Hcap) Hok Hno)
    as (rb' & rs & f' & E & Hs' & Hc' & Ht' & Hst & Htk).
  { unfold Unbounded.writeCursor, zlen. simpl. lia. }
  exists rb', rs. split; [exact E|].
  rewrite (sim_pending rb' f' (zlen (supplied ops)) Hs')
    by (rewrite ?Hc', ?Hcap; done).
  simpl in Hst, Htk. rewrite <- Htk, take_drop. exact Hst.
Qed.

Lemma fifo_conservation_witness :
  conserved (mkRB (replicate 15 xff) 15 0 0) round_trip_ops.
Proof.
  apply (fifo_conservation filled_malloc 15 _ round_trip_ops filled_malloc_ok).
  - rewrite SIZE_MOD_val. lia.
  - reflexivity.
  - reflexivity.
  - vm_compute. reflexivity.
  - right. vm_compute. discriminate.
Defined.

(** ** The cursors pass the range of [size_t] *)

(** After [n] bytes have passed through the buffer, the burst runs from
    the buffer whose cursors are [n] reduced to [size_t]. *)
Lemma run_churn_burst c n k rbF tr :
  (0 < c)%nat -> Z.of_nat c < SIZE_MOD ->
  wrap (Z.of_nat n) = k ->
  run (idle c xff k) burst = Some (rbF, tr) ->
  run (idle c xff 0) (churn n xff ++ burst)
  = Some (rbF, churn_trace n xff ++ tr).
Proof.
  intros Hc Hs Hk Eb. rewrite run_app.
  destruct (churn_run c xff Hc Hs n 0 ltac:(rewrite SIZE_MOD_val; lia))
    as [E _].
  rewrite Z.add_0_l, Hk in E. rewrite E. cbn [mbind option_bind].
  rewrite Eb. reflexivity.
Qed.

Lemma no_overflow_churn_burst c n k :
  (0 < c)%nat -> Z.of_nat c < SIZE_MOD ->
  wrap (Z.of_nat n) = k ->
  no_overflow (idle c xff k) burst = true ->
  no_overflow (idle c xff 0) (churn n xff ++ burst) = true.
Proof.
  intros Hc Hs Hk Hb.
  destruct (churn_run c xff Hc Hs n 0 ltac:(rewrite SIZE_MOD_val; lia))
    as [E Hn].
  rewrite (no_overflow_app _ _ _ _ _ E), Hn, Z.add_0_l, Hk, Hb. reflexivity.
Qed.

Lemma three_fits : (0 < 3)%nat /\ Z.of_nat 3 < SIZE_MOD.
Proof. rewrite SIZE_MOD_val. lia. Qed.

Lemma Unbounded_churn_burst n :
  (Unbounded.run (Unbounded.create 3) (churn n xff ++ burst)).2
  = churn_trace n xff ++ [Written 2; Written 1; Delivered [x01; x02; x03]].
Proof.
  rewrite Unbounded_run_app. cbn [snd].
  change (Unbounded.create 3) with (Unbounded.mkFIFO [] (zlen []) 3).
  rewrite Unbounded_churn by lia. cbn [fst snd].
  by rewrite Unbounded_burst.
Qed.

Lemma Some_pair_inj {A B : Type} (a c : A) (b d : B) :
  Some (a, b) = Some (c, d) -> a = c /\ b = d.
Proof. by intros [= -> ->]. Qed.

Lemma wrap_of_nat_to_nat k : 0 <= k < SIZE_MOD -> wrap (Z.of_nat (Z.to_nat k)) = k.
Proof. intros Hk. rewrite Z2Nat.id by lia. by apply wrap_small. Qed.

(** The burst from cursors [2^64 - 1]: the second write lands on the slot
    of the first. *)
Lemma burst_at_wrap :
  run (idle 3 xff (SIZE_MOD - 1)) burst
  = Some (mkRB [x01; x03; xff] 3 2 2,
          [Written 2; Written 1; Delivered [x01; x03; xff]])
  /\ no_overflow (idle 3 xff (SIZE_MOD - 1)) burst = true.
Proof. split; vm_compute; reflexivity. Qed.

(** The burst from cursors [2^64 - 2]: the first write is split at the end
    of the storage, and the second overwrites its second segment. *)
Lemma burst_at_straddle :
  run (idle 3 xff (SIZE_MOD - 2)) burst
  = Some (mkRB [x03; xff; x01] 3 1 1,
          [Written 2; Written 1; Delivered [x01; x03; xff]]).
Proof. vm_compute. reflexivity. Qed.

(** C1, as stated, fails.  A buffer of capacity 3 is initialised;
    [2^64 - 1] bytes are written and read back one at a time; then two
    bytes are written, one more byte is written, and three are read.  No
    write exceeds the free space, yet the reads return [01 03 ff] where
    [01 02 03] was written: the write cursor wrapped to 1 and [1 % 3]
    addresses the slot that still held the unread [02]. *)
Lemma conservation_fails_after_cursor_wrap :
  InitializeRingBuffer filled_malloc 3 = (idle 3 xff 0, 3)
  /\ forallb op_ok wrap_ops = true
  /\ no_overflow (idle 3 xff 0) wrap_ops = true
  /\ ~ conserved (idle 3 xff 0) wrap_ops.
Proof.
  assert (Hk : wrap (Z.of_nat (Z.to_nat (SIZE_MOD - 1))) = SIZE_MOD - 1)
    by (apply wrap_of_nat_to_nat; rewrite SIZE_MOD_val; lia).
  destruct burst_at_wrap as [Eb Hb].
  split; [reflexivity|]. split; [|split].
  - unfold wrap_ops. rewrite forallb_app, churn_op_ok. reflexivity.
  - unfold wrap_ops.
    exact (no_overflow_churn_burst 3 _ _ (proj1 three_fits) (proj2 three_fits)
             Hk Hb).
  - intros (rb' & rs & E & H). unfold wrap_ops in E, H.
    rewrite (run_churn_burst 3 _ _ _ _ (proj1 three_fits) (proj2 three_fits)
               Hk Eb) in E.
    apply Some_pair_inj in E as [Erb Ers]. rewrite <- Erb, <- Ers in H.
    rewrite delivered_app, churn_delivered, supplied_app, churn_supplied,
      <- app_assoc in H.
    apply app_inv_head in H. vm_compute in H. discriminate H.
Qed.

(** C4, as stated, fails.  The same with [2^64 - 2] bytes first: the
    two-byte write is split across the end of the storage; the reference
    delivers [01 02 03], the ring buffer [01 03 ff]. *)
Lemma refinement_fails_after_cursor_wrap :
  InitializeRingBuffer filled_malloc 3 = (idle 3 xff 0, 3)
  /\ forallb op_ok straddle_ops = true
  /\ ~ refines (idle 3 xff 0) straddle_ops.
Proof.
  assert (Hk : wrap (Z.of_nat (Z.to_nat (SIZE_MOD - 2))) = SIZE_MOD - 2)
    by (apply wrap_of_nat_to_nat; rewrite SIZE_MOD_val; lia).
  split; [reflexivity|]. split.
  - unfold straddle_ops. rewrite forallb_app, churn_op_ok. reflexivity.
  - intros (rb' & E). unfold straddle_ops in E.
    rewrite (run_churn_burst 3 _ _ _ _ (proj1 three_fits) (proj2 three_fits)
               Hk burst_at_straddle) in E.
    change (Capacity (idle 3 xff 0)) with 3 in E.
    rewrite Unbounded_churn_burst in E.
    apply Some_pair_inj in E as [_ E].
    apply app_inv_head in E. discriminate E.
Qed.

(** ** The byte-by-byte loops *)

Lemma Slow_FreeSpace rb :
  Slow.FreeSpaceRingBuffer rb = FreeSpaceRingBuffer rb.
Proof.
  unfold Slow.FreeSpaceRingBuffer, FreeSpaceRingBuffer, CountRingBuffer.
  rewrite wrap_add_l, wrap_sub_r. f_equal. lia.
Qed.

Lemma Slow_IsFull rb :
  rb_wf rb -> Slow.IsFullRingBuffer rb = (FreeSpaceRingBuffer rb =? 0).
Proof. intros _. unfold Slow.IsFullRingBuffer. by rewrite Slow_FreeSpace. Qed.

Lemma wrap_le z : 0 <= z -> wrap z <= z.
Proof. intros H. apply Z.mod_le; [done|apply SIZE_MOD_pos]. Qed.

(** The slot after the one of cursor [c], when [c + 1] is addressed
    linearly. *)
Lemma next_slot cap top c :
  0 < cap -> linear cap top -> 0 <= c -> c + 1 < top ->
  wrap (c + 1) mod cap = (c + 1) mod cap.
Proof. intros Hcap Hlin Hc Ht. apply (linear_slot cap top); [done|done|lia]. Qed.

(** Offsets around the ring, one slot further. *)
Lemma ring_offset_pred cap j c :
  0 < cap ->
  (j - (c + 1)) mod cap
  = if (j - c) mod cap =? 0 then cap - 1 else (j - c) mod cap - 1.
Proof.
  intros Hcap. pose proof (Z.mod_pos_bound (j - c) cap Hcap) as Ho.
  replace (j - (c + 1)) with (j - c - 1) by lia.
  rewrite <- Zminus_mod_idemp_l.
  destruct (Z.eqb_spec ((j - c) mod cap) 0) as [E|E].
  - rewrite E. symmetry. apply (Z.mod_unique_pos _ _ (-1)); lia.
  - apply Z.mod_small. lia.
Qed.

Lemma WriteLoop_spec Data m :
  forall rb Pos,
    rb_wf rb -> 0 <= Pos ->
    Pos + Z.min (FreeSpaceRingBuffer rb) (Z.of_nat m) <= zlen Data ->
    linear (Capacity rb)
      (WriteIndex rb + Z.min (FreeSpaceRingBuffer rb) (Z.of_nat m)) ->
    exists blk,
      Slow.WriteLoop m rb Data Pos
      = Some (add_WriteIndex (set_Buffer rb blk)
                (Z.min (FreeSpaceRingBuffer rb) (Z.of_nat m)),
              Pos + Z.min (FreeSpaceRingBuffer rb) (Z.of_nat m))
      /\ zlen blk = Capacity rb
      /\ forall j, 0 <= j < Capacity rb ->
           load blk j
           = if (j - WriteIndex rb) mod Capacity rb
                <? Z.min (FreeSpaceRingBuffer rb) (Z.of_nat m)
             then load Data (Pos + (j - WriteIndex rb) mod Capacity rb)
             else load (Buffer rb) j.
Proof.
  induction m as [|m IH]; intros rb Pos Hwf HPos HData Hlin;
    pose proof (Count_range rb Hwf) as HC;
    pose proof (FreeSpace_eq rb Hwf) as HF;
    pose proof (wf_cap rb Hwf) as Hc; pose proof (wf_len rb Hwf) as Hl;
    pose proof (wf_write rb Hwf) as HW.
  - (* no iteration *)
    change (Z.of_nat 0) with 0 in *.
    rewrite Z.min_r by lia. exists (Buffer rb).
    rewrite add_WriteIndex_0, Z.add_0_r by done.
    split; [simpl; by destruct (Slow.IsFullRingBuffer rb)|].
    split; [done|]. intros j Hj.
    pose proof (Z.mod_pos_bound (j - WriteIndex rb) (Capacity rb) ltac:(lia)).
    destruct (Z.ltb_spec ((j - WriteIndex rb) mod Capacity rb) 0); [lia|done].
  - cbn [Slow.WriteLoop]. rewrite Slow_IsFull by done.
    destruct (Z.eqb_spec (FreeSpaceRingBuffer rb) 0) as [Ef|Ef].
    { (* full *)
      rewrite Ef, Z.min_l by lia. exists (Buffer rb).
      rewrite add_WriteIndex_0, Z.add_0_r by done.
      split; [done|]. split; [done|]. intros j Hj.
      pose proof (Z.mod_pos_bound (j - WriteIndex rb) (Capacity rb) ltac:(lia)).
      destruct (Z.ltb_spec ((j - WriteIndex rb) mod Capacity rb) 0); [lia|done]. }
    assert (Hpos : 0 < Capacity rb) by lia.
    set (n := Z.min (FreeSpaceRingBuffer rb) (Z.of_nat (S m))) in *.
    assert (Hn : 1 <= n <= FreeSpaceRingBuffer rb) by lia.
    destruct (load_is_Some Data Pos) as [b Hb]; [lia|].
    rewrite Hb. cbn [mbind option_bind]. unfold umod.
    destruct (Z.eqb_spec (Capacity rb) 0) as [E0|_]; [lia|].
    cbn [mbind option_bind].
    pose proof (Z.mod_pos_bound (WriteIndex rb) (Capacity rb) Hpos) as HI.
    set (Index := WriteIndex rb mod Capacity rb) in *.
    destruct (store (Buffer rb) Index b) as [blk1|] eqn:Es.
    2:{ rewrite store_Some in Es by lia. done. }
    cbn [mbind option_bind].
    set (rb1 := add_WriteIndex (set_Buffer rb blk1) 1).
    assert (Hwf1 : rb_wf rb1).
    { apply wf_add_WriteIndex; [done| |lia].
      rewrite (store_zlen _ _ _ _ Es). done. }
    assert (HF1 : FreeSpaceRingBuffer rb1 = FreeSpaceRingBuffer rb - 1).
    { rewrite (FreeSpace_eq rb1 Hwf1), HF. unfold rb1.
      rewrite Count_add_WriteIndex, wrap_small by lia. simpl. lia. }
    assert (Hn1 : Z.min (FreeSpaceRingBuffer rb1) (Z.of_nat m) = n - 1) by lia.
    assert (HW1 : WriteIndex rb1 = wrap (WriteIndex rb + 1)) by done.
    pose proof (wrap_le (WriteIndex rb + 1) ltac:(lia)) as Hle.
    destruct (IH rb1 (Pos + 1) Hwf1) as (blk2 & E2 & Hl2 & Hb2).
    { lia. } { rewrite Hn1. lia. }
    { rewrite Hn1, HW1. destruct Hlin as [Hd|Ht]; [by left|right; lia]. }
    rewrite Hn1 in E2, Hb2. rewrite E2.
    exists blk2. split.
    { f_equal. f_equal; [|lia]. unfold add_WriteIndex, rb1; simpl.
      f_equal. rewrite wrap_add_l. f_equal. lia. }
    split; [exact Hl2|]. intros j Hj.
    rewrite Hb2 by done.
    change (Buffer rb1) with blk1. rewrite (store_load _ _ _ _ j Es).
    pose proof (ring_offset (WriteIndex rb) _ _ Hpos Hj) as Hoff.
    fold Index in Hoff.
    pose proof (Z.mod_pos_bound (j - WriteIndex rb) (Capacity rb) Hpos) as Ho.
    change (Capacity rb1) with (Capacity rb).
    destruct (Z.eq_dec n 1) as [En|En].
    + (* the last byte *)
      replace (n - 1) with 0 by lia.
      pose proof (Z.mod_pos_bound (j - WriteIndex rb1) (Capacity rb) Hpos).
      destruct (Z.ltb_spec ((j - WriteIndex rb1) mod Capacity rb) 0); [lia|].
      destruct (Z.eqb_spec j Index) as [->|Hne].
      * destruct (Z.leb_spec Index Index); [|lia].
        rewrite Hoff, Z.sub_diag.
        destruct (Z.ltb_spec 0 n); [|lia]. by rewrite Z.add_0_r.
      * destruct (Z.leb_spec Index j);
          destruct (Z.ltb_spec ((j - WriteIndex rb) mod Capacity rb) n);
          try lia; done.
    + (* more bytes follow: the next cursor is the next slot *)
      assert (Hoff1 : (j - WriteIndex rb1) mod Capacity rb
                      = (j - (WriteIndex rb + 1)) mod Capacity rb).
      { rewrite <- Zminus_mod_idemp_r, HW1.
        rewrite (next_slot _ _ _ Hpos Hlin) by lia.
        by rewrite Zminus_mod_idemp_r. }
      rewrite Hoff1, (ring_offset_pred _ _ _ Hpos).
      destruct (Z.eqb_spec ((j - WriteIndex rb) mod Capacity rb) 0) as [Ez|Ez].
      * assert (j = Index) as -> by (destruct (Z.leb_spec Index j); lia).
        rewrite Ez. destruct (Z.ltb_spec (Capacity rb - 1) (n - 1)); [lia|].
        rewrite Z.eqb_refl. destruct (Z.ltb_spec 0 n); [|lia].
        by rewrite Z.add_0_r.
      * assert (j <> Index) by (destruct (Z.leb_spec Index j); lia).
        destruct (Z.eqb_spec j Index); [done|].
        destruct (Z.ltb_spec ((j - WriteIndex rb) mod Capacity rb - 1) (n - 1)),
          (Z.ltb_spec ((j - WriteIndex rb) mod Capacity rb) n); try lia;
          [|done].
        f_equal. lia.
Qed.

Lemma ReadLoop_spec m :
  forall rb Data Pos,
    rb_wf rb -> 0 <= Pos ->
    Pos + Z.min (CountRingBuffer rb) (Z.of_nat m) <= zlen Data ->
    linear (Capacity rb)
      (ReadIndex rb + Z.min (CountRingBuffer rb) (Z.of_nat m)) ->
    exists out,
      Slow.ReadLoop m rb Data Pos
      = Some (add_ReadIndex rb (Z.min (CountRingBuffer rb) (Z.of_nat m)), out,
              Pos + Z.min (CountRingBuffer rb) (Z.of_nat m))
      /\ zlen out = zlen Data
      /\ forall i,
           load out i
           = if (Pos <=? i)
                && (i <? Pos + Z.min (CountRingBuffer rb) (Z.of_nat m))
             then load (Buffer rb) ((ReadIndex rb + (i - Pos)) mod Capacity rb)
             else load Data i.
Proof.
  induction m as [|m IH]; intros rb Data Pos Hwf HPos HData Hlin;
    pose proof (Count_range rb Hwf) as HC;
    pose proof (wf_cap rb Hwf) as Hc; pose proof (wf_len rb Hwf) as Hl;
    pose proof (wf_read rb Hwf) as HR.
  - change (Z.of_nat 0) with 0 in *.
    rewrite Z.min_r by lia. exists Data.
    rewrite add_ReadIndex_0, Z.add_0_r by done.
    split; [simpl; by destruct (Slow.IsEmptyRingBuffer rb)|].
    split; [done|]. intros i.
    destruct (Z.leb_spec Pos i), (Z.ltb_spec i Pos); try lia; done.
  - cbn [Slow.ReadLoop]. unfold Slow.IsEmptyRingBuffer.
    change (Slow.CountRingBuffer rb) with (CountRingBuffer rb).
    destruct (Z.eqb_spec (CountRingBuffer rb) 0) as [Ee|Ee].
    { rewrite Ee, Z.min_l by lia. exists Data.
      rewrite add_ReadIndex_0, Z.add_0_r by done.
      split; [done|]. split; [done|]. intros i.
      destruct (Z.leb_spec Pos i), (Z.ltb_spec i Pos); try lia; done. }
    assert (Hpos : 0 < Capacity rb) by lia.
    set (n := Z.min (CountRingBuffer rb) (Z.of_nat (S m))) in *.
    assert (Hn : 1 <= n <= CountRingBuffer rb) by lia.
    unfold umod. destruct (Z.eqb_spec (Capacity rb) 0) as [E0|_]; [lia|].
    cbn [mbind option_bind].
    pose proof (Z.mod_pos_bound (ReadIndex rb) (Capacity rb) Hpos) as HI.
    set (Index := ReadIndex rb mod Capacity rb) in *.
    destruct (load_is_Some (Buffer rb) Index) as [b Hb]; [lia|].
    rewrite Hb. cbn [mbind option_bind].
    destruct (store Data Pos b) as [out1|] eqn:Es.
    2:{ rewrite store_Some in Es by lia. done. }
    cbn [mbind option_bind].
    set (rb1 := add_ReadIndex rb 1).
    assert (Hwf1 : rb_wf rb1) by (apply wf_add_ReadIndex; [done|lia]).
    assert (HC1 : CountRingBuffer rb1 = CountRingBuffer rb - 1).
    { unfold rb1. rewrite Count_add_ReadIndex. apply wrap_small. lia. }
    assert (Hn1 : Z.min (CountRingBuffer rb1) (Z.of_nat m) = n - 1) by lia.
    assert (HR1 : ReadIndex rb1 = wrap (ReadIndex rb + 1)) by done.
    pose proof (wrap_le (ReadIndex rb + 1) ltac:(lia)) as Hle.
    pose proof (store_zlen _ _ _ _ Es) as Hl1.
    destruct (IH rb1 out1 (Pos + 1) Hwf1) as (out2 & E2 & Hl2 & Hb2).
    { lia. } { rewrite Hn1, Hl1. lia. }
    { rewrite Hn1, HR1. destruct Hlin as [Hd|Ht]; [by left|right; lia]. }
    rewrite Hn1 in E2, Hb2. rewrite E2.
    exists out2. split.
    { f_equal. f_equal; [|lia]. f_equal. unfold add_ReadIndex, rb1; simpl.
      f_equal. rewrite wrap_add_l. f_equal. lia. }
    split; [lia|]. intros i.
    rewrite Hb2. change (Buffer rb1) with (Buffer rb).
    change (Capacity rb1) with (Capacity rb).
    rewrite (store_load _ _ _ _ i Es).
    destruct (Z.eqb_spec i Pos) as [->|Hne].
    + (* the byte of this iteration *)
      destruct (Z.leb_spec (Pos + 1) Pos); [lia|]. simpl.
      destruct (Z.leb_spec Pos Pos), (Z.ltb_spec Pos (Pos + n)); try lia.
      simpl. rewrite Z.sub_diag, Z.add_0_r. fold Index. by rewrite Hb.
    + destruct (Z.leb_spec (Pos + 1) i), (Z.leb_spec Pos i); try lia; simpl;
        [|done].
      replace (Pos + 1 + (n - 1)) with (Pos + n) by lia.
      destruct (Z.ltb_spec i (Pos + n)); [|done].
      (* a later byte: the next cursor is the next slot *)
      f_equal. rewrite <- Zplus_mod_idemp_l, ?HR1.
      rewrite (next_slot _ _ _ Hpos Hlin) by lia.
      rewrite Zplus_mod_idemp_l. f_equal. lia.
Qed.

(** C9, as amended.  The byte-by-byte [WriteRingBuffer] and
    [ReadRingBuffer] of the slow revision return what the split-copy ones
    return (count, final buffer, output block), on every well-formed buffer
    of capacity > 0 and for every size, provided the cursor does not pass
    the range of [size_t] during the call or the capacity divides
    [2^64]. *)
Theorem slow_fast_equivalent rb Data Size :
  rb_wf rb -> 0 < Capacity rb -> 0 <= Size <= zlen Data ->
  (linear (Capacity rb)
     (WriteIndex rb + Z.min (FreeSpaceRingBuffer rb) Size) ->
   exists r, WriteRingBuffer rb Data Size = Some r
             /\ Slow.WriteRingBuffer rb Data Size = Some r)
  /\ (linear (Capacity rb)
        (ReadIndex rb + Z.min (CountRingBuffer rb) Size) ->
      exists r, ReadRingBuffer rb Data Size = Some r
                /\ Slow.ReadRingBuffer rb Data Size = Some r).
Proof.
  intros Hwf Hpos HSize. split; intros Hlin.
  - destruct (WriteRingBuffer_spec rb Data Size Hwf) as (blk & E & Hl & Hb);
      [lia|lia|].
    destruct (WriteLoop_spec Data (Z.to_nat Size) rb 0 Hwf)
      as (blk' & E' & Hl' & Hb'); rewrite ?Z2Nat.id by lia; [lia|lia|done|].
    rewrite Z2Nat.id in E', Hb' by lia.
    assert (blk' = blk) as ->.
    { apply block_ext; [lia|]. intros j Hj. rewrite Hl' in Hj.
      by rewrite Hb, Hb'. }
    eexists. split; [exact E|]. exact E'.
  - destruct (ReadRingBuffer_spec rb Data Size Hwf) as (out & E & Hl & Hb);
      [lia|lia|].
    destruct (ReadLoop_spec (Z.to_nat Size) rb Data 0 Hwf)
      as (out' & E' & Hl' & Hb'); rewrite ?Z2Nat.id by lia; [lia|lia|done|].
    rewrite Z2Nat.id in E', Hb' by lia.
    assert (out' = out) as ->.
    { apply block_ext; [lia|]. intros i Hi.
      rewrite Hb, Hb'. replace (i - 0) with i by lia. done. }
    eexists. split; [exact E|]. exact E'.
Qed.

Lemma slow_fast_equivalent_witness :
  (exists r, WriteRingBuffer (mkRB (replicate 15 xff) 15 14 14) hello 14 = Some r
             /\ Slow.WriteRingBuffer (mkRB (replicate 15 xff) 15 14 14) hello 14
                = Some r)
  /\ (exists r, ReadRingBuffer (mkRB hello 14 10 20) hello 14 = Some r
                /\ Slow.ReadRingBuffer (mkRB hello 14 10 20) hello 14 = Some r).
Proof.
  split.
  - apply (slow_fast_equivalent (mkRB (replicate 15 xff) 15 14 14) hello 14).
    + apply wf_check_ok. vm_compute. reflexivity.
    + simpl. lia.
    + vm_compute. split; discriminate.
    + right. vm_compute. discriminate.
  - apply (slow_fast_equivalent (mkRB hello 14 10 20) hello 14).
    + apply wf_check_ok. vm_compute. reflexivity.
    + simpl. lia.
    + vm_compute. split; discriminate.
    + right. vm_compute. discriminate.
Defined.

(** C9, as stated, fails.  In the buffer of capacity 3 reached after
    [2^64 - 1] bytes have passed through it, a two-byte write stores
    [01 02] in slots 0 and 1 in the split-copy revision; the byte-by-byte
    revision stores [01] in slot 0, wraps the cursor to 0 and stores [02]
    in slot [0 % 3] again.  After the split-copy write, a two-byte read
    delivers [01 02] in the split-copy revision and [01 01] in the
    byte-by-byte one. *)
Lemma slow_fast_differ_at_cursor_wrap :
  reachable filled_malloc 3 (idle 3 xff (SIZE_MOD - 1))
  /\ rb_wf (idle 3 xff (SIZE_MOD - 1))
  /\ WriteRingBuffer (idle 3 xff (SIZE_MOD - 1)) [x01; x02] 2
     = Some (mkRB [x01; x02; xff] 3 (SIZE_MOD - 1) 1, 2)
  /\ Slow.WriteRingBuffer (idle 3 xff (SIZE_MOD - 1)) [x01; x02] 2
     = Some (mkRB [x02; xff; xff] 3 (SIZE_MOD - 1) 1, 2)
  /\ ReadRingBuffer (mkRB [x01; x02; xff] 3 (SIZE_MOD - 1) 1) [x00; x00] 2
     = Some (mkRB [x01; x02; xff] 3 1 1, [x01; x02], 2)
  /\ Slow.ReadRingBuffer (mkRB [x01; x02; xff] 3 (SIZE_MOD - 1) 1) [x00; x00] 2
     = Some (mkRB [x01; x02; xff] 3 1 1, [x01; x01], 2)
  /\ Slow.WriteRingBuffer (idle 3 xff (SIZE_MOD - 1)) [x01; x02] 2
     <> WriteRingBuffer (idle 3 xff (SIZE_MOD - 1)) [x01; x02] 2.
Proof.
  split.
  { rewrite <- (wrap_of_nat_to_nat (SIZE_MOD - 1))
      by (rewrite SIZE_MOD_val; lia).
    by apply (idle_reachable 3 xff ltac:(lia) ltac:(rewrite SIZE_MOD_val; lia)
                filled_malloc). }
  split; [apply wf_check_ok; vm_compute; reflexivity|].
  split; [vm_compute; reflexivity|]. split; [vm_compute; reflexivity|].
  split; [vm_compute; reflexivity|]. split; [vm_compute; reflexivity|].
  vm_compute. discriminate.
Qed.

(** ** A capacity that divides [2^64]

    The same [2^64 - 1] bytes and the same burst through a buffer of four
    bytes: the cursor wraps as before, but [4] divides [2^64], the slots
    stay in step with the cursors, and the bytes are conserved. *)
Lemma four_survives_cursor_wrap :
  conserved (idle 4 xff 0) (churn (Z.to_nat (SIZE_MOD - 1)) xff ++ burst).
Proof.
  assert (Hk : wrap (Z.of_nat (Z.to_nat (SIZE_MOD - 1))) = SIZE_MOD - 1)
    by (apply wrap_of_nat_to_nat; rewrite SIZE_MOD_val; lia).
  assert (H4 : (0 < 4)%nat /\ Z.of_nat 4 < SIZE_MOD)
    by (rewrite SIZE_MOD_val; lia).
  assert (Hb : no_overflow (idle 4 xff (SIZE_MOD - 1)) burst = true)
    by (vm_compute; reflexivity).
  pose proof (sim_create filled_malloc 4 filled_malloc_ok
                ltac:(rewrite SIZE_MOD_val; lia)) as Hsim.
  change (InitializeRingBuffer filled_malloc 4).1 with (idle 4 xff 0) in Hsim.
  assert (Hlin : forall top, linear (Capacity (idle 4 xff 0)) top)
    by (intros top; left; exists 4611686018427387904; reflexivity).
  set (ops := churn (Z.to_nat (SIZE_MOD - 1)) xff ++ burst).
  destruct (conservation_run ops _ _ (zlen (supplied ops)) Hsim (Hlin _))
    as (rb' & rs & f' & E & Hs' & Hc' & Ht' & Hst & Htk).
  { unfold ops. rewrite forallb_app, churn_op_ok. reflexivity. }
  { exact (no_overflow_churn_burst 4 _ _ (proj1 H4) (proj2 H4) Hk Hb). }
  { change (Unbounded.writeCursor
              (Unbounded.create (Capacity (idle 4 xff 0)))) with 0. lia. }
  exists rb', rs. split; [exact E|].
  rewrite (sim_pending rb' f' (zlen (supplied ops)) Hs')
    by (rewrite ?Hc'; auto).
  change (Unbounded.stream (Unbounded.create (Capacity (idle 4 xff 0))))
    with (@nil BYTE) in Hst, Htk.
  change (Unbounded.readCursor (Unbounded.create (Capacity (idle 4 xff 0))))
    with 0 in Htk.
  change (take (Z.to_nat 0) []) with (@nil BYTE) in Htk.
  rewrite !app_nil_l in *. rewrite <- Htk, take_drop. exact Hst.
Qed.

(** ** The first revision at capacity 0

    Without the guard the modulus by the capacity is taken first: on the
    zeroed record both block operations are undefined, and the construction
    itself consults [malloc] and returns 0 whatever it answers. *)
Lemma Rev1_zero_capacity_undefined Data Size :
  Rev1.WriteRingBuffer zeroed Data Size = None
  /\ Rev1.ReadRingBuffer zeroed Data Size = None.
Proof. split; reflexivity. Qed.

Lemma Rev1_Initialize_zero malloc :
  (Rev1.InitializeRingBuffer malloc 0).2 = 0.
Proof. unfold Rev1.InitializeRingBuffer. by destruct (malloc 0). Qed.

(** C6.  The first revision breaks zero-capacity totality.  On the calls
    that the [main] of the later revisions makes under "Test idiot-proofing"
    ([InitializeRingBuffer] with capacity 0, then [WriteRingBuffer] of 13
    bytes and [ReadRingBuffer] of 256 bytes) the first revision takes
    [WriteIndex % 0] and [ReadIndex % 0], which is undefined, where the
    guarded revisions return 0 and leave buffer and block as they were. *)
Theorem first_revision_zero_capacity :
  Rev1.InitializeRingBuffer filled_malloc 0 = (zeroed, 0)
  /\ Rev1.WriteRingBuffer zeroed hello 13 = None
  /\ Rev1.ReadRingBuffer zeroed (replicate 15 x00) 256 = None
  /\ InitializeRingBuffer filled_malloc 0 = (zeroed, 0)
  /\ WriteRingBuffer zeroed hello 13 = Some (zeroed, 0)
  /\ ReadRingBuffer zeroed (replicate 15 x00) 256
     = Some (zeroed, replicate 15 x00, 0).
Proof. repeat split. Qed.

(** C7.  The first revision allocates for capacity 0.  Whatever [malloc]
    answers, its [InitializeRingBuffer] asks it for a block of 0 bytes when
    the capacity is 0 (and keeps the block it is given), where the guarded
    revisions ask for nothing; the record and the result of the traced
    function are those of the function itself. *)
Theorem first_revision_allocates_for_zero malloc :
  (Rev1.InitializeRingBuffer_traced malloc 0).1
  = Rev1.InitializeRingBuffer malloc 0
  /\ (Rev1.InitializeRingBuffer_traced malloc 0).2 = [0]
  /\ (forall blk, malloc 0 = Some blk ->
      Buffer (Rev1.InitializeRingBuffer malloc 0).1 = blk)
  /\ (InitializeRingBuffer_traced malloc 0).2 = []
  /\ InitializeRingBuffer malloc 0 = (zeroed, 0).
Proof.
  unfold Rev1.InitializeRingBuffer_traced, Rev1.InitializeRingBuffer.
  destruct (malloc 0) as [blk|]; simpl.
  - split; [done|]. split; [done|]. split; [by intros ? [= <-]|done].
  - split; [done|]. split; [done|]. split; [done|done].
Qed.

(** * Further properties of the code *)

(** ** Reading *)

Lemma read_slot c cap i :
  0 < cap -> 0 <= i < cap ->
  (c + i) mod cap
  = if c mod cap + i <? cap then c mod cap + i else c mod cap + i - cap.
Proof.
  intros Hcap Hi. rewrite <- Zplus_mod_idemp_l.
  pose proof (Z.mod_pos_bound c cap Hcap).
  destruct (Z.ltb_spec (c mod cap + i) cap).
  - apply Z.mod_small. lia.
  - symmetry. apply (Z.mod_unique_pos _ _ 1); lia.
Qed.

(** X1.  Read postcondition: on a well-formed buffer of capacity > 0,
    [ReadRingBuffer] returns [n = min(Size, Count)], leaves the storage, the
    capacity and [WriteIndex] alone, advances [ReadIndex] by [n] (the
    occupancy shrinks and the free space grows by exactly [n]), and fills
    the first [n] bytes of the caller's block from slot
    [ReadIndex mod Capacity] on, continuing at slot 0 past the end of the
    storage; the rest of the caller's block keeps its bytes. *)
Theorem Read_postcondition rb Data Size :
  rb_wf rb -> 0 < Capacity rb -> 0 <= Size ->
  Z.min Size (CountRingBuffer rb) <= zlen Data ->
  exists out,
    ReadRingBuffer rb Data Size
    = Some ({| Buffer := Buffer rb; Capacity := Capacity rb;
               ReadIndex :=
                 wrap (ReadIndex rb + Z.min Size (CountRingBuffer rb));
               WriteIndex := WriteIndex rb |},
            out, Z.min Size (CountRingBuffer rb))
    /\ zlen out = zlen Data
    /\ CountRingBuffer (add_ReadIndex rb (Z.min Size (CountRingBuffer rb)))
       = CountRingBuffer rb - Z.min Size (CountRingBuffer rb)
    /\ FreeSpaceRingBuffer (add_ReadIndex rb (Z.min Size (CountRingBuffer rb)))
       = FreeSpaceRingBuffer rb + Z.min Size (CountRingBuffer rb)
    /\ forall i,
         load out i
         = if (0 <=? i) && (i <? Z.min Size (CountRingBuffer rb))
           then if ReadIndex rb mod Capacity rb + i <? Capacity rb
                then load (Buffer rb) (ReadIndex rb mod Capacity rb + i)
                else load (Buffer rb)
                       (ReadIndex rb mod Capacity rb + i - Capacity rb)
           else load Data i.
Proof.
  intros Hwf Hpos HSize HData.
  pose proof (Count_range rb Hwf) as HC. pose proof (wf_cap rb Hwf) as Hc.
  rewrite (Z.min_comm Size) in *.
  destruct (ReadRingBuffer_spec rb Data Size Hwf) as (out & E & Hl & Hb);
    [lia|lia|].
  set (n := Z.min (CountRingBuffer rb) Size) in *.
  assert (Hwf' : rb_wf (add_ReadIndex rb n))
    by (apply wf_add_ReadIndex; [done|lia]).
  assert (HC' : CountRingBuffer (add_ReadIndex rb n) = CountRingBuffer rb - n).
  { rewrite Count_add_ReadIndex. apply wrap_small. lia. }
  exists out. split; [exact E|]. split; [done|]. split; [done|]. split.
  { rewrite (FreeSpace_eq _ Hwf'), (FreeSpace_eq _ Hwf), HC'. simpl. lia. }
  intros i. rewrite Hb.
  destruct (Z.leb_spec 0 i), (Z.ltb_spec i n); simpl; try done.
  rewrite (read_slot _ _ _ Hpos) by lia.
  by destruct (ReadIndex rb mod Capacity rb + i <? Capacity rb).
Qed.

Lemma Read_postcondition_witness :
  exists out,
    ReadRingBuffer (mkRB (x65 :: replicate 13 x2a ++ [x48]) 15 14 16)
      (replicate 4 x00) 4
    = Some (mkRB (x65 :: replicate 13 x2a ++ [x48]) 15 16 16, out, 2)
    /\ load out 0 = Some x48 /\ load out 1 = Some x65
    /\ load out 2 = Some x00.
Proof.
  destruct (Read_postcondition
              (mkRB (x65 :: replicate 13 x2a ++ [x48]) 15 14 16)
              (replicate 4 x00) 4) as (out & E & _ & _ & _ & Hb).
  - apply wf_check_ok. vm_compute. reflexivity.
  - simpl. lia.
  - lia.
  - vm_compute. discriminate.
  - exists out. split; [exact E|].
    pose proof (Hb 0) as H0. pose proof (Hb 1) as H1. pose proof (Hb 2) as H2.
    auto.
Defined.

(** ** A write read back *)

Lemma empty_cursors rb :
  rb_wf rb -> IsEmptyRingBuffer rb = true -> WriteIndex rb = ReadIndex rb.
Proof.
  intros Hwf He. unfold IsEmptyRingBuffer, CountRingBuffer in He.
  apply Z.eqb_eq in He. pose proof (wf_read rb Hwf). pose proof (wf_write rb Hwf).
  unfold wrap in He. rewrite SIZE_MOD_val in *.
  destruct (Z.le_gt_cases (ReadIndex rb) (WriteIndex rb)).
  - rewrite Z.mod_small in He by lia. lia.
  - rewrite <- (Z.mod_add _ 1) in He by lia.
    rewrite Z.mod_small in He by lia. lia.
Qed.

(** X2.  Round trip: on an empty well-formed buffer, wherever its cursors
    stand (also just before they pass the range of [size_t]), writing a
    block no longer than the capacity and reading as many bytes back
    returns the full count twice, delivers exactly the bytes written and
    leaves the buffer empty. *)
Theorem write_read_round_trip rb Data out :
  rb_wf rb -> IsEmptyRingBuffer rb = true ->
  zlen Data <= Capacity rb -> zlen Data <= zlen out ->
  exists rb1 rb2 out',
    WriteRingBuffer rb Data (zlen Data) = Some (rb1, zlen Data)
    /\ ReadRingBuffer rb1 out (zlen Data) = Some (rb2, out', zlen Data)
    /\ take (Z.to_nat (zlen Data)) out' = Data
    /\ IsEmptyRingBuffer rb2 = true.
Proof.
  intros Hwf He HData Hout.
  pose proof (empty_cursors rb Hwf He) as HWR.
  unfold IsEmptyRingBuffer in He. apply Z.eqb_eq in He.
  pose proof (FreeSpace_eq rb Hwf) as HF. pose proof (wf_cap rb Hwf) as Hc.
  pose proof (zlen_nonneg Data) as HD.
  destruct (WriteRingBuffer_spec rb Data (zlen Data) Hwf) as (blk & E & Hl & Hb);
    [lia|lia|].
  rewrite Z.min_r in E, Hb by lia.
  set (rb1 := add_WriteIndex (set_Buffer rb blk) (zlen Data)) in *.
  assert (Hwf1 : rb_wf rb1) by (apply wf_add_WriteIndex; [done|done|lia]).
  assert (HC1 : CountRingBuffer rb1 = zlen Data).
  { unfold rb1. rewrite Count_add_WriteIndex, He. apply wrap_small. lia. }
  destruct (ReadRingBuffer_spec rb1 out (zlen Data) Hwf1) as (out' & E' & Hl' & Hb');
    [lia|lia|].
  rewrite HC1, Z.min_id in E', Hb'.
  exists rb1, (add_ReadIndex rb1 (zlen Data)), out'.
  split; [exact E|]. split; [exact E'|]. split.
  - apply block_ext; [rewrite zlen_take; lia|].
    rewrite zlen_take by lia. intros i Hi.
    rewrite load_take by lia. rewrite Hb'.
    destruct (Z.leb_spec 0 i), (Z.ltb_spec i (zlen Data)); try lia. simpl.
    change (Buffer rb1) with blk. change (Capacity rb1) with (Capacity rb).
    change (ReadIndex rb1) with (ReadIndex rb).
    assert (Hpos : 0 < Capacity rb) by lia.
    rewrite Hb by (apply Z.mod_pos_bound; lia).
    rewrite Zminus_mod_idemp_l, HWR.
    replace (ReadIndex rb + i - ReadIndex rb) with i by lia.
    rewrite Z.mod_small by lia.
    destruct (Z.ltb_spec i (zlen Data)); [done|lia].
  - unfold IsEmptyRingBuffer. rewrite Count_add_ReadIndex, HC1, Z.sub_diag.
    reflexivity.
Qed.

Lemma write_read_round_trip_witness :
  exists rb1 rb2 out',
    WriteRingBuffer (idle 3 xff (SIZE_MOD - 1)) [x01; x02; x03] 3
    = Some (rb1, 3)
    /\ ReadRingBuffer rb1 (replicate 3 x00) 3 = Some (rb2, out', 3)
    /\ take 3 out' = [x01; x02; x03]
    /\ IsEmptyRingBuffer rb2 = true.
Proof.
  apply (write_read_round_trip (idle 3 xff (SIZE_MOD - 1)) [x01; x02; x03]
           (replicate 3 x00)).
  - apply wf_check_ok. vm_compute. reflexivity.
  - vm_compute. reflexivity.
  - vm_compute. discriminate.
  - vm_compute. discriminate.
Defined.

(** ** Every call is defined *)

(** X3.  No undefined behaviour: on a well-formed buffer each of the four
    operations is defined (no modulus by zero, no copy or subscript outside
    the storage or the caller's block) as long as the caller's block holds
    [Size] bytes; the buffer afterwards is well formed with the same
    capacity, and the count returned is between 0 and [Size] (0 or 1 for
    the byte operations). *)
Theorem operations_defined rb :
  rb_wf rb ->
  (forall Data Size, 0 <= Size <= zlen Data ->
     exists rb' n, WriteRingBuffer rb Data Size = Some (rb', n)
       /\ rb_wf rb' /\ Capacity rb' = Capacity rb /\ 0 <= n <= Size)
  /\ (forall b,
        exists rb' n, WriteByteRingBuffer rb b = Some (rb', n)
          /\ rb_wf rb' /\ Capacity rb' = Capacity rb /\ 0 <= n <= 1)
  /\ (forall Data Size, 0 <= Size <= zlen Data ->
        exists rb' out n, ReadRingBuffer rb Data Size = Some (rb', out, n)
          /\ rb_wf rb' /\ Capacity rb' = Capacity rb /\ 0 <= n <= Size
          /\ zlen out = zlen Data)
  /\ (forall Data,
        exists rb' b n, ReadByteRingBuffer rb Data = Some (rb', b, n)
          /\ rb_wf rb' /\ Capacity rb' = Capacity rb /\ 0 <= n <= 1).
Proof.
  intros Hwf. pose proof (Count_range rb Hwf) as HC.
  pose proof (FreeSpace_eq rb Hwf) as HF.
  split; [|split; [|split]].
  - intros Data Size HS.
    destruct (WriteRingBuffer_spec rb Data Size Hwf) as (blk & E & Hl & _);
      [lia|lia|].
    eexists _, _. split; [exact E|].
    split; [apply wf_add_WriteIndex; [done|done|lia]|]. split; [done|lia].
  - intros b. rewrite WriteByteRingBuffer_spec by done.
    unfold IsFullRingBuffer.
    destruct (Z.eqb_spec (CountRingBuffer rb) (Capacity rb)) as [Ef|Ef].
    + exists rb, 0. split; [done|]. split; [done|]. split; [done|lia].
    + eexists _, 1. split; [done|]. split; [|split; [done|lia]].
      apply wf_add_WriteIndex; [done| |lia].
      unfold zlen. rewrite length_insert. apply Hwf.
  - intros Data Size HS.
    destruct (ReadRingBuffer_spec rb Data Size Hwf) as (out & E & Hl & _);
      [lia|lia|].
    eexists _, out, _. split; [exact E|].
    split; [apply wf_add_ReadIndex; [done|lia]|]. split; [done|].
    split; [lia|done].
  - intros Data. destruct (IsEmptyRingBuffer rb) eqn:He.
    + exists rb, Data, 0. rewrite ReadByteRingBuffer_empty by done.
      split; [done|]. split; [done|]. split; [done|lia].
    + destruct (ReadByteRingBuffer_nonempty rb Data Hwf He) as (b & _ & E).
      exists (add_ReadIndex rb 1), b, 1. split; [exact E|].
      unfold IsEmptyRingBuffer in He. apply Z.eqb_neq in He.
      split; [apply wf_add_ReadIndex; [done|lia]|]. split; [done|lia].
Qed.

Lemma operations_defined_witness :
  (exists rb' n,
     WriteRingBuffer (mkRB (replicate 15 xff) 15 28 30) (hello ++ hello) 20
     = Some (rb', n) /\ rb_wf rb' /\ Capacity rb' = 15 /\ 0 <= n <= 20)
  /\ (exists rb' b n,
        ReadByteRingBuffer (mkRB (replicate 15 xff) 15 28 30) x00
        = Some (rb', b, n) /\ rb_wf rb' /\ Capacity rb' = 15 /\ 0 <= n <= 1).
Proof.
  destruct (operations_defined (mkRB (replicate 15 xff) 15 28 30))
    as (HW & _ & _ & HRB).
  - apply wf_check_ok. vm_compute. reflexivity.
  - split.
    + apply (HW (hello ++ hello) 20). vm_compute. split; discriminate.
    + apply (HRB x00).
Defined.

(** ** The byte operations *)

(** X4.  On a well-formed buffer [WriteByteRingBuffer] is
    [WriteRingBuffer] with a block of one byte, and [ReadByteRingBuffer] is
    [ReadRingBuffer] into a block of one byte: the same count, the same
    buffer afterwards, the same byte delivered (and the caller's byte kept
    when nothing is read). *)
Theorem byte_operations_are_blocks_of_one rb b :
  rb_wf rb ->
  WriteByteRingBuffer rb b = WriteRingBuffer rb [b] 1
  /\ ReadRingBuffer rb [b] 1
     = match ReadByteRingBuffer rb b with
       | Some (rb', b', n) => Some (rb', [b'], n)
       | None => None
       end.
Proof.
  intros Hwf. split; [by apply WriteByte_as_Write|].
  rewrite ReadByte_as_Read by done.
  by destruct (ReadByteRingBuffer rb b) as [[[rb' b'] n]|].
Qed.

Lemma byte_operations_are_blocks_of_one_witness :
  WriteByteRingBuffer (mkRB hello 14 13 20) x2a
  = WriteRingBuffer (mkRB hello 14 13 20) [x2a] 1
  /\ ReadRingBuffer (mkRB hello 14 13 20) [x2a] 1
     = Some (mkRB hello 14 14 20, [x0a], 1).
Proof.
  destruct (byte_operations_are_blocks_of_one (mkRB hello 14 13 20) x2a)
    as [HW HR].
  - apply wf_check_ok. vm_compute. reflexivity.
  - split; [exact HW|]. refine (eq_trans HR _). vm_compute. reflexivity.
Defined.

(** ** Empty and full *)

(** X5.  Empty and full are told apart by the cursors, not by the slots:
    on a well-formed buffer [IsEmptyRingBuffer] holds exactly when the
    cursors are equal and [IsFullRingBuffer] exactly when the free space is
    0; both hold together exactly when the capacity is 0.  A full buffer of
    capacity > 0 whose read cursor is at least a capacity below [2^64]
    has its write slot on its read slot, as an empty one has. *)
Theorem empty_full_told_apart rb :
  rb_wf rb ->
  (IsEmptyRingBuffer rb = true <-> WriteIndex rb = ReadIndex rb)
  /\ (IsFullRingBuffer rb = true <-> FreeSpaceRingBuffer rb = 0)
  /\ (IsEmptyRingBuffer rb = true /\ IsFullRingBuffer rb = true
      <-> Capacity rb = 0)
  /\ (0 < Capacity rb -> IsFullRingBuffer rb = true ->
      ReadIndex rb + Capacity rb < SIZE_MOD ->
      WriteIndex rb = ReadIndex rb + Capacity rb
      /\ WriteIndex rb mod Capacity rb = ReadIndex rb mod Capacity rb).
Proof.
  intros Hwf. pose proof (Count_range rb Hwf) as HC.
  pose proof (FreeSpace_eq rb Hwf) as HF.
  pose proof (wf_read rb Hwf) as HR. pose proof (wf_write rb Hwf) as HW.
  assert (HE : IsEmptyRingBuffer rb = true <-> WriteIndex rb = ReadIndex rb).
  { split; [by apply empty_cursors|].
    intros E. unfold IsEmptyRingBuffer, CountRingBuffer.
    by rewrite E, Z.sub_diag. }
  unfold IsFullRingBuffer, IsEmptyRingBuffer in *.
  split; [exact HE|]. split; [rewrite Z.eqb_eq; lia|]. split.
  - rewrite !Z.eqb_eq. split; [lia|]. intros E0. lia.
  - intros Hpos Hf Hr. apply Z.eqb_eq in Hf.
    assert (HWi : WriteIndex rb = ReadIndex rb + Capacity rb).
    { unfold CountRingBuffer, wrap in Hf. rewrite SIZE_MOD_val in *.
      destruct (Z.le_gt_cases (ReadIndex rb) (WriteIndex rb)).
      - rewrite Z.mod_small in Hf by lia. lia.
      - rewrite <- (Z.mod_add _ 1) in Hf by lia.
        rewrite Z.mod_small in Hf by lia. lia. }
    split; [exact HWi|]. rewrite HWi.
    rewrite <- (Z.mul_1_l (Capacity rb)) at 1. apply Z.mod_add. lia.
Qed.

Lemma empty_full_told_apart_witness :
  IsFullRingBuffer (mkRB (replicate 15 x2a) 15 28 43) = true
  /\ IsEmptyRingBuffer (mkRB (replicate 15 x2a) 15 28 43) = false
  /\ 43 mod 15 = 28 mod 15.
Proof.
  destruct (empty_full_told_apart (mkRB (replicate 15 x2a) 15 28 43))
    as (_ & _ & _ & H).
  - apply wf_check_ok. vm_compute. reflexivity.
  - split; [reflexivity|]. split; [reflexivity|].
    apply H; [simpl; lia|reflexivity|vm_compute; reflexivity].
Defined.

(** X6.  The two ways the revisions test fullness agree: for any record
    whose capacity is a [size_t] value, [FreeSpace == 0] with
    [FreeSpace = Capacity - WriteIndex + ReadIndex] (first and byte-by-byte
    revisions) holds exactly when [Count == Capacity] (guarded revisions),
    and the two free-space expressions are always equal. *)
Theorem IsFull_revisions_agree rb :
  0 <= Capacity rb < SIZE_MOD ->
  Slow.FreeSpaceRingBuffer rb = FreeSpaceRingBuffer rb
  /\ Slow.IsFullRingBuffer rb = IsFullRingBuffer rb.
Proof.
  intros Hc. split; [apply Slow_FreeSpace|].
  unfold Slow.IsFullRingBuffer, IsFullRingBuffer.
  rewrite Slow_FreeSpace. unfold FreeSpaceRingBuffer.
  pose proof (wrap_range (WriteIndex rb - ReadIndex rb)) as HC.
  fold (CountRingBuffer rb) in HC. unfold wrap. rewrite SIZE_MOD_val in *.
  destruct (Z.eqb_spec (CountRingBuffer rb) (Capacity rb)) as [E|E].
  - rewrite E, Z.sub_diag. reflexivity.
  - apply Z.eqb_neq.
    destruct (Z.le_gt_cases (CountRingBuffer rb) (Capacity rb)).
    + rewrite Z.mod_small by lia. lia.
    + rewrite <- (Z.mod_add _ 1) by lia. rewrite Z.mod_small by lia. lia.
Qed.

Lemma IsFull_revisions_agree_witness :
  Slow.FreeSpaceRingBuffer (mkRB (replicate 3 xff) 3 (SIZE_MOD - 1) 2) = 0
  /\ Slow.IsFullRingBuffer (mkRB (replicate 3 xff) 3 (SIZE_MOD - 1) 2)
     = IsFullRingBuffer (mkRB (replicate 3 xff) 3 (SIZE_MOD - 1) 2).
Proof.
  destruct (IsFull_revisions_agree (mkRB (replicate 3 xff) 3 (SIZE_MOD - 1) 2))
    as [HF HI].
  - vm_compute. split; [discriminate|reflexivity].
  - split; [reflexivity|exact HI].
Defined.

(** ** The first revision against the guarded ones *)

Lemma memcpy_nothing dst doff src soff :
  0 <= doff <= zlen dst -> 0 <= soff <= zlen src ->
  memcpy dst doff src soff 0 = Some dst.
Proof.
  intros Hd Hs. rewrite memcpy_Some by lia. f_equal.
  rewrite Z.add_0_r. simpl. apply take_drop.
Qed.

(** X7.  What the guards changed: on a well-formed buffer of capacity
    other than 0 the first revision's [WriteRingBuffer] and
    [ReadRingBuffer] compute exactly what the guarded ones compute, for
    every block and size (a copy of no bytes replaces the early return).  On
    any record of capacity 0 the first revision takes a modulus by zero,
    where the guarded ones return 0 and leave everything as it was. *)
Theorem Rev1_and_guarded rb Data Size :
  (rb_wf rb -> Capacity rb <> 0 ->
   Rev1.WriteRingBuffer rb Data Size = WriteRingBuffer rb Data Size
   /\ Rev1.ReadRingBuffer rb Data Size = ReadRingBuffer rb Data Size)
  /\ (Capacity rb = 0 ->
      Rev1.WriteRingBuffer rb Data Size = None
      /\ Rev1.ReadRingBuffer rb Data Size = None
      /\ WriteRingBuffer rb Data Size = Some (rb, 0)
      /\ ReadRingBuffer rb Data Size = Some (rb, Data, 0)).
Proof.
  split.
  - intros Hwf Hc0. pose proof (wf_cap rb Hwf) as Hc.
    pose proof (wf_len rb Hwf) as Hl. pose proof (zlen_nonneg Data) as HD.
    assert (Hpos : 0 < Capacity rb) by lia.
    unfold Rev1.WriteRingBuffer, Rev1.ReadRingBuffer, WriteRingBuffer,
      ReadRingBuffer, umod. rewrite Slow_FreeSpace.
    destruct (Z.eqb_spec (Capacity rb) 0) as [|_]; [done|].
    cbn [mbind option_bind]. split.
    + pose proof (Z.mod_pos_bound (WriteIndex rb) (Capacity rb) Hpos) as HI.
      set (Index := WriteIndex rb mod Capacity rb) in *.
      destruct (Z.eqb_spec (Z.min (FreeSpaceRingBuffer rb) Size) 0) as [E|E];
        [|done].
      rewrite E, (wrap_small (Capacity rb - Index)) by lia.
      destruct (Z.leb_spec 0 (Capacity rb - Index)); [|lia].
      rewrite memcpy_nothing by lia. cbn [mbind option_bind].
      by rewrite add_WriteIndex_0.
    + pose proof (Z.mod_pos_bound (ReadIndex rb) (Capacity rb) Hpos) as HI.
      set (Index := ReadIndex rb mod Capacity rb) in *.
      destruct (Z.eqb_spec (Z.min (CountRingBuffer rb) Size) 0) as [E|E];
        [|done].
      rewrite E, (wrap_small (Capacity rb - Index)) by lia.
      destruct (Z.leb_spec 0 (Capacity rb - Index)); [|lia].
      rewrite memcpy_nothing by lia. cbn [mbind option_bind].
      by rewrite add_ReadIndex_0.
  - intros E0.
    unfold Rev1.WriteRingBuffer, Rev1.ReadRingBuffer, WriteRingBuffer,
      ReadRingBuffer, umod. rewrite E0. done.
Qed.

Lemma Rev1_and_guarded_witness :
  Rev1.WriteRingBuffer (mkRB (replicate 15 xff) 15 14 14) hello 14
  = WriteRingBuffer (mkRB (replicate 15 xff) 15 14 14) hello 14
  /\ Rev1.WriteRingBuffer zeroed hello 13 = None
  /\ WriteRingBuffer zeroed hello 13 = Some (zeroed, 0).
Proof.
  destruct (Rev1_and_guarded (mkRB (replicate 15 xff) 15 14 14) hello 14)
    as [H1 _].
  destruct (Rev1_and_guarded zeroed hello 13) as [_ H2].
  destruct H1 as [HW _].
  - apply wf_check_ok. vm_compute. reflexivity.
  - simpl. lia.
  - destruct H2 as (HW0 & _ & HG & _); [reflexivity|]. auto.
Defined.

(** ** Nothing goes into a full buffer *)

(** X8.  Idempotent fullness: on a full buffer [WriteRingBuffer] (for any
    block and [size_t] size) and [WriteByteRingBuffer] return 0 and hand
    back the buffer as it was: no stored byte is overwritten; so does any
    sequence of writes. *)
Theorem full_writes_idempotent rb :
  IsFullRingBuffer rb = true ->
  (forall Data Size, 0 <= Size ->
     WriteRingBuffer rb Data Size = Some (rb, 0))
  /\ (forall b, WriteByteRingBuffer rb b = Some (rb, 0))
  /\ (forall ops, forallb is_write ops = true ->
        run rb ops = Some (rb, map (fun _ => Written 0) ops)).
Proof.
  intros Hf.
  assert (HW : forall Data Size, 0 <= Size ->
            WriteRingBuffer rb Data Size = Some (rb, 0)).
  { intros Data Size HS. unfold WriteRingBuffer, umod.
    destruct (Capacity rb =? 0); [done|]. cbn [mbind option_bind].
    unfold IsFullRingBuffer in Hf. apply Z.eqb_eq in Hf.
    unfold FreeSpaceRingBuffer. rewrite Hf, Z.sub_diag.
    change (wrap 0) with 0. rewrite Z.min_l by done. done. }
  assert (HB : forall b, WriteByteRingBuffer rb b = Some (rb, 0)).
  { intros b. unfold WriteByteRingBuffer. by rewrite Hf. }
  split; [exact HW|]. split; [exact HB|].
  induction ops as [|o ops IH]; [done|].
  simpl. rewrite andb_true_iff. intros [Ho Hops]. specialize (IH Hops).
  destruct o as [Data|b| |]; try done; simpl.
  - rewrite HW by apply zlen_nonneg. simpl. by rewrite IH.
  - rewrite HB. simpl. by rewrite IH.
Qed.

Lemma full_writes_idempotent_witness :
  run (mkRB (hello ++ [x2a]) 15 28 43) [Write hello; WriteByte x21; Write []]
  = Some (mkRB (hello ++ [x2a]) 15 28 43, [Written 0; Written 0; Written 0]).
Proof.
  destruct (full_writes_idempotent (mkRB (hello ++ [x2a]) 15 28 43)
              ltac:(reflexivity)) as (_ & _ & Hrun).
  apply (Hrun [Write hello; WriteByte x21; Write []]). reflexivity.
Defined.

(** ** The unchecked byte accesses *)

(** X9.  The contract of the unchecked byte accesses.  On a well-formed
    buffer that is not full (not empty), the unchecked write (read) is the
    checked one.  With capacity 0 both take a modulus by zero.  On a full
    buffer of capacity > 0 the unchecked write still returns 1 and leaves
    an occupancy of [Capacity + 1]; on an empty one the unchecked read
    returns 1 with a stale byte and leaves an occupancy of [2^64 - 1]: in
    both cases the buffer is no longer well formed. *)
Theorem unchecked_contract rb b :
  rb_wf rb ->
  (IsFullRingBuffer rb = false ->
   WriteByteRingBufferUnchecked rb b = WriteByteRingBuffer rb b)
  /\ (IsEmptyRingBuffer rb = false ->
      ReadByteRingBufferUnchecked rb b = ReadByteRingBuffer rb b)
  /\ (Capacity rb = 0 ->
      WriteByteRingBufferUnchecked rb b = None
      /\ ReadByteRingBufferUnchecked rb b = None)
  /\ (0 < Capacity rb -> Capacity rb + 1 < SIZE_MOD ->
      IsFullRingBuffer rb = true ->
      exists rb', WriteByteRingBufferUnchecked rb b = Some (rb', 1)
        /\ CountRingBuffer rb' = Capacity rb' + 1 /\ ~ rb_wf rb')
  /\ (0 < Capacity rb -> Capacity rb + 1 < SIZE_MOD ->
      IsEmptyRingBuffer rb = true ->
      exists rb' b', ReadByteRingBufferUnchecked rb b = Some (rb', b', 1)
        /\ CountRingBuffer rb' = SIZE_MOD - 1 /\ ~ rb_wf rb').
Proof.
  intros Hwf. pose proof (Count_range rb Hwf) as HC.
  pose proof (wf_cap rb Hwf) as Hc. pose proof (wf_len rb Hwf) as Hl.
  split; [|split; [|split; [|split]]].
  - intros Hf. unfold WriteByteRingBuffer. by rewrite Hf.
  - intros He. unfold ReadByteRingBuffer. by rewrite He.
  - intros E0. unfold WriteByteRingBufferUnchecked,
      ReadByteRingBufferUnchecked, umod. by rewrite E0.
  - intros Hpos Hs Hf. unfold IsFullRingBuffer in Hf. apply Z.eqb_eq in Hf.
    pose proof (Z.mod_pos_bound (WriteIndex rb) (Capacity rb) Hpos) as HI.
    unfold WriteByteRingBufferUnchecked, umod.
    destruct (Z.eqb_spec (Capacity rb) 0); [lia|]. cbn [mbind option_bind].
    rewrite store_Some by lia. cbn [mbind option_bind].
    eexists. split; [reflexivity|].
    assert (HC' : CountRingBuffer
                    (add_WriteIndex
                       (set_Buffer rb
                          (<[Z.to_nat (WriteIndex rb mod Capacity rb):=b]>
                             (Buffer rb))) 1)
                  = Capacity rb + 1).
    { rewrite Count_add_WriteIndex, Hf. apply wrap_small. lia. }
    split; [exact HC'|]. intros Hwf'. pose proof (wf_count _ Hwf') as Hle.
    rewrite HC' in Hle. simpl in Hle. lia.
  - intros Hpos Hs He. unfold IsEmptyRingBuffer in He. apply Z.eqb_eq in He.
    pose proof (Z.mod_pos_bound (ReadIndex rb) (Capacity rb) Hpos) as HI.
    unfold ReadByteRingBufferUnchecked, umod.
    destruct (Z.eqb_spec (Capacity rb) 0); [lia|]. cbn [mbind option_bind].
    destruct (load_is_Some (Buffer rb) (ReadIndex rb mod Capacity rb))
      as [b' Hb]; [lia|].
    rewrite Hb. cbn [mbind option_bind].
    exists (add_ReadIndex rb 1), b'. split; [reflexivity|].
    assert (HC' : CountRingBuffer (add_ReadIndex rb 1) = SIZE_MOD - 1).
    { rewrite Count_add_ReadIndex, He. reflexivity. }
    split; [exact HC'|]. intros Hwf'. pose proof (wf_count _ Hwf') as Hle.
    rewrite HC' in Hle. simpl in Hle. lia.
Qed.

Lemma unchecked_contract_witness :
  (exists rb',
     WriteByteRingBufferUnchecked (mkRB (hello ++ [x2a]) 15 28 43) x21
     = Some (rb', 1) /\ CountRingBuffer rb' = Capacity rb' + 1 /\ ~ rb_wf rb')
  /\ WriteByteRingBufferUnchecked zeroed x21 = None.
Proof.
  destruct (unchecked_contract (mkRB (hello ++ [x2a]) 15 28 43) x21)
    as (_ & _ & _ & HF & _).
  - apply wf_check_ok. vm_compute. reflexivity.
  - destruct (unchecked_contract zeroed x21 wf_zeroed) as (_ & _ & HZ & _).
    split.
    + apply HF; [simpl; lia|vm_compute; reflexivity|reflexivity].
    + apply HZ. reflexivity.
Defined.

(** ** Counts of the byte-by-byte revision *)

Lemma WriteLoop_counts Data m :
  forall rb Pos,
    rb_wf rb -> 0 <= Pos ->
    Pos + Z.min (FreeSpaceRingBuffer rb) (Z.of_nat m) <= zlen Data ->
    exists blk,
      Slow.WriteLoop m rb Data Pos
      = Some (add_WriteIndex (set_Buffer rb blk)
                (Z.min (FreeSpaceRingBuffer rb) (Z.of_nat m)),
              Pos + Z.min (FreeSpaceRingBuffer rb) (Z.of_nat m))
      /\ zlen blk = Capacity rb.
Proof.
  induction m as [|m IH]; intros rb Pos Hwf HPos HData;
    pose proof (Count_range rb Hwf) as HC;
    pose proof (FreeSpace_eq rb Hwf) as HF;
    pose proof (wf_cap rb Hwf) as Hc; pose proof (wf_len rb Hwf) as Hl.
  - change (Z.of_nat 0) with 0 in *.
    rewrite Z.min_r by lia. exists (Buffer rb).
    rewrite add_WriteIndex_0, Z.add_0_r by done.
    split; [simpl; by destruct (Slow.IsFullRingBuffer rb)|done].
  - cbn [Slow.WriteLoop]. rewrite Slow_IsFull by done.
    destruct (Z.eqb_spec (FreeSpaceRingBuffer rb) 0) as [Ef|Ef].
    { rewrite Ef, Z.min_l by lia. exists (Buffer rb).
      rewrite add_WriteIndex_0, Z.add_0_r by done. done. }
    assert (Hpos : 0 < Capacity rb) by lia.
    set (n := Z.min (FreeSpaceRingBuffer rb) (Z.of_nat (S m))) in *.
    destruct (load_is_Some Data Pos) as [b Hb]; [lia|].
    rewrite Hb. cbn [mbind option_bind]. unfold umod.
    destruct (Z.eqb_spec (Capacity rb) 0) as [E0|_]; [lia|].
    cbn [mbind option_bind].
    pose proof (Z.mod_pos_bound (WriteIndex rb) (Capacity rb) Hpos) as HI.
    destruct (store (Buffer rb) (WriteIndex rb mod Capacity rb) b)
      as [blk1|] eqn:Es.
    2:{ rewrite store_Some in Es by lia. done. }
    cbn [mbind option_bind].
    set (rb1 := add_WriteIndex (set_Buffer rb blk1) 1).
    assert (Hwf1 : rb_wf rb1).
    { apply wf_add_WriteIndex; [done| |lia].
      rewrite (store_zlen _ _ _ _ Es). done. }
    assert (HF1 : FreeSpaceRingBuffer rb1 = FreeSpaceRingBuffer rb - 1).
    { rewrite (FreeSpace_eq rb1 Hwf1), HF. unfold rb1.
      rewrite Count_add_WriteIndex, wrap_small by lia. simpl. lia. }
    assert (Hn1 : Z.min (FreeSpaceRingBuffer rb1) (Z.of_nat m) = n - 1) by lia.
    destruct (IH rb1 (Pos + 1) Hwf1) as (blk2 & E2 & Hl2); [lia|lia|].
    rewrite Hn1 in E2. rewrite E2. exists blk2. split; [|exact Hl2].
    f_equal. f_equal; [|lia]. unfold add_WriteIndex, rb1; simpl.
    f_equal. rewrite wrap_add_l. f_equal. lia.
Qed.

Lemma ReadLoop_counts m :
  forall rb Data Pos,
    rb_wf rb -> 0 <= Pos ->
    Pos + Z.min (CountRingBuffer rb) (Z.of_nat m) <= zlen Data ->
    exists out,
      Slow.ReadLoop m rb Data Pos
      = Some (add_ReadIndex rb (Z.min (CountRingBuffer rb) (Z.of_nat m)), out,
              Pos + Z.min (CountRingBuffer rb) (Z.of_nat m))
      /\ zlen out = zlen Data.
Proof.
  induction m as [|m IH]; intros rb Data Pos Hwf HPos HData;
    pose proof (Count_range rb Hwf) as HC;
    pose proof (wf_cap rb Hwf) as Hc; pose proof (wf_len rb Hwf) as Hl.
  - change (Z.of_nat 0) with 0 in *.
    rewrite Z.min_r by lia. exists Data.
    rewrite add_ReadIndex_0, Z.add_0_r by done.
    split; [simpl; by destruct (Slow.IsEmptyRingBuffer rb)|done].
  - cbn [Slow.ReadLoop]. unfold Slow.IsEmptyRingBuffer.
    change (Slow.CountRingBuffer rb) with (CountRingBuffer rb).
    destruct (Z.eqb_spec (CountRingBuffer rb) 0) as [Ee|Ee].
    { rewrite Ee, Z.min_l by lia. exists Data.
      rewrite add_ReadIndex_0, Z.add_0_r by done. done. }
    assert (Hpos : 0 < Capacity rb) by lia.
    set (n := Z.min (CountRingBuffer rb) (Z.of_nat (S m))) in *.
    unfold umod. destruct (Z.eqb_spec (Capacity rb) 0) as [E0|_]; [lia|].
    cbn [mbind option_bind].
    pose proof (Z.mod_pos_bound (ReadIndex rb) (Capacity rb) Hpos) as HI.
    destruct (load_is_Some (Buffer rb) (ReadIndex rb mod Capacity rb))
      as [b Hb]; [lia|].
    rewrite Hb. cbn [mbind option_bind].
    destruct (store Data Pos b) as [out1|] eqn:Es.
    2:{ rewrite store_Some in Es by lia. done. }
    cbn [mbind option_bind].
    set (rb1 := add_ReadIndex rb 1).
    assert (Hwf1 : rb_wf rb1) by (apply wf_add_ReadIndex; [done|lia]).
    assert (HC1 : CountRingBuffer rb1 = CountRingBuffer rb - 1).
    { unfold rb1. rewrite Count_add_ReadIndex. apply wrap_small. lia. }
    assert (Hn1 : Z.min (CountRingBuffer rb1) (Z.of_nat m) = n - 1) by lia.
    pose proof (store_zlen _ _ _ _ Es) as Hl1.
    destruct (IH rb1 out1 (Pos + 1) Hwf1) as (out2 & E2 & Hl2); [lia|lia|].
    rewrite Hn1 in E2. rewrite E2. exists out2. split; [|lia].
    f_equal. f_equal; [|lia]. f_equal. unfold add_ReadIndex, rb1; simpl.
    f_equal. rewrite wrap_add_l. f_equal. lia.
Qed.

(** X10.  The byte-by-byte revision has no zero-capacity guard, yet on
    every well-formed buffer (capacity 0 included, and wherever the cursors
    stand) its loops are defined, transfer exactly [min(Size, FreeSpace)]
    and [min(Size, Count)] bytes, advance only the write (read) cursor by
    that count and keep the buffer well formed. *)
Theorem Slow_counts rb Data Size :
  rb_wf rb -> 0 <= Size <= zlen Data ->
  (exists blk,
     Slow.WriteRingBuffer rb Data Size
     = Some (add_WriteIndex (set_Buffer rb blk)
               (Z.min Size (FreeSpaceRingBuffer rb)),
             Z.min Size (FreeSpaceRingBuffer rb))
     /\ rb_wf (add_WriteIndex (set_Buffer rb blk)
                 (Z.min Size (FreeSpaceRingBuffer rb))))
  /\ (exists out,
        Slow.ReadRingBuffer rb Data Size
        = Some (add_ReadIndex rb (Z.min Size (CountRingBuffer rb)), out,
                Z.min Size (CountRingBuffer rb))
        /\ zlen out = zlen Data
        /\ rb_wf (add_ReadIndex rb (Z.min Size (CountRingBuffer rb)))).
Proof.
  intros Hwf HS. pose proof (Count_range rb Hwf) as HC.
  pose proof (FreeSpace_eq rb Hwf) as HF.
  rewrite !(Z.min_comm Size). split.
  - destruct (WriteLoop_counts Data (Z.to_nat Size) rb 0 Hwf)
      as (blk & E & Hl); rewrite ?Z2Nat.id by lia; [lia|lia|].
    rewrite Z2Nat.id in E by lia. exists blk. split; [exact E|].
    apply wf_add_WriteIndex; [done|done|lia].
  - destruct (ReadLoop_counts (Z.to_nat Size) rb Data 0 Hwf)
      as (out & E & Hl); rewrite ?Z2Nat.id by lia; [lia|lia|].
    rewrite Z2Nat.id in E by lia. exists out. split; [exact E|].
    split; [done|]. apply wf_add_ReadIndex; [done|lia].
Qed.

Lemma Slow_counts_witness :
  (exists blk,
     Slow.WriteRingBuffer (idle 3 xff (SIZE_MOD - 1)) hello 14
     = Some (mkRB blk 3 (SIZE_MOD - 1) 2, 3)
     /\ rb_wf (mkRB blk 3 (SIZE_MOD - 1) 2))
  /\ (exists out,
        Slow.ReadRingBuffer zeroed hello 14 = Some (zeroed, out, 0)
        /\ zlen out = 14 /\ rb_wf zeroed).
Proof.
  destruct (Slow_counts (idle 3 xff (SIZE_MOD - 1)) hello 14) as [HW _].
  - apply wf_check_ok. vm_compute. reflexivity.
  - vm_compute. split; discriminate.
  - destruct (Slow_counts zeroed hello 14 wf_zeroed) as [_ HR].
    + vm_compute. split; discriminate.
    + split; [exact HW|exact HR].
Defined.

(** ** Calls in pieces *)

Lemma offset_after cap c k j :
  0 < cap -> 0 <= k <= cap ->
  (j - (c + k)) mod cap
  = if (j - c) mod cap <? k then (j - c) mod cap - k + cap
    else (j - c) mod cap - k.
Proof.
  intros Hcap Hk. pose proof (Z.mod_pos_bound (j - c) cap Hcap) as Ho.
  replace (j - (c + k)) with (j - c - k) by lia.
  rewrite <- Zminus_mod_idemp_l.
  destruct (Z.ltb_spec ((j - c) mod cap) k).
  - symmetry. apply (Z.mod_unique_pos _ _ (-1)); lia.
  - apply Z.mod_small. lia.
Qed.

(** X11.  A write in two pieces: when two blocks fit together in the free
    space (and the write cursor does not pass the range of [size_t], or the
    capacity divides [2^64]), writing the first and then the second accepts
    both in full and leaves exactly the buffer that one write of the two
    blocks joined leaves. *)
Theorem write_in_two_pieces rb d1 d2 :
  rb_wf rb ->
  zlen d1 + zlen d2 <= FreeSpaceRingBuffer rb ->
  linear (Capacity rb) (WriteIndex rb + zlen d1 + zlen d2) ->
  exists rb1 rb2,
    WriteRingBuffer rb d1 (zlen d1) = Some (rb1, zlen d1)
    /\ WriteRingBuffer rb1 d2 (zlen d2) = Some (rb2, zlen d2)
    /\ WriteRingBuffer rb (d1 ++ d2) (zlen d1 + zlen d2)
       = Some (rb2, zlen d1 + zlen d2).
Proof.
  intros Hwf Hfit Hlin.
  pose proof (Count_range rb Hwf) as HC. pose proof (FreeSpace_eq rb Hwf) as HF.
  pose proof (wf_cap rb Hwf) as Hc. pose proof (wf_write rb Hwf) as HW.
  pose proof (zlen_nonneg d1) as H1. pose proof (zlen_nonneg d2) as H2.
  destruct (WriteRingBuffer_spec rb (d1 ++ d2) (zlen d1 + zlen d2) Hwf)
    as (blkA & EA & HlA & HbA); [lia|rewrite zlen_app; lia|].
  rewrite Z.min_r in EA, HbA by lia.
  destruct (WriteRingBuffer_spec rb d1 (zlen d1) Hwf)
    as (blk1 & E1 & Hl1 & Hb1); [lia|lia|].
  rewrite Z.min_r in E1, Hb1 by lia.
  set (rb1 := add_WriteIndex (set_Buffer rb blk1) (zlen d1)) in *.
  assert (Hwf1 : rb_wf rb1) by (apply wf_add_WriteIndex; [done|done|lia]).
  assert (HF1 : FreeSpaceRingBuffer rb1 = FreeSpaceRingBuffer rb - zlen d1).
  { rewrite (FreeSpace_eq rb1 Hwf1), HF. unfold rb1.
    rewrite Count_add_WriteIndex, wrap_small by lia. simpl. lia. }
  destruct (WriteRingBuffer_spec rb1 d2 (zlen d2) Hwf1)
    as (blk2 & E2 & Hl2 & Hb2); [lia|lia|].
  rewrite Z.min_r in E2, Hb2 by lia.
  change (Capacity rb1) with (Capacity rb) in *.
  change (Buffer rb1) with blk1 in *.
  change (WriteIndex rb1) with (wrap (WriteIndex rb + zlen d1)) in *.
  exists rb1, (add_WriteIndex (set_Buffer rb1 blk2) (zlen d2)).
  split; [exact E1|]. split; [exact E2|]. rewrite EA. f_equal. f_equal.
  unfold add_WriteIndex, set_Buffer, rb1; simpl. f_equal.
  2:{ rewrite wrap_add_l. f_equal. lia. }
  apply block_ext; [lia|]. intros j Hj. rewrite HlA in Hj.
  assert (Hpos : 0 < Capacity rb) by lia.
  pose proof (Z.mod_pos_bound (j - WriteIndex rb) (Capacity rb) Hpos) as Ho.
  rewrite HbA, Hb2, Hb1 by done.
  destruct (Z.eq_dec (zlen d2) 0) as [E0|E0].
  { rewrite E0, Z.add_0_r.
    pose proof (Z.mod_pos_bound (j - wrap (WriteIndex rb + zlen d1))
                  (Capacity rb) Hpos).
    destruct (Z.ltb_spec ((j - wrap (WriteIndex rb + zlen d1)) mod Capacity rb) 0);
      [lia|].
    destruct (Z.ltb_spec ((j - WriteIndex rb) mod Capacity rb) (zlen d1));
      [|done].
    by rewrite load_app_l. }
  assert (Hoff : (j - wrap (WriteIndex rb + zlen d1)) mod Capacity rb
                 = (j - (WriteIndex rb + zlen d1)) mod Capacity rb).
  { rewrite <- Zminus_mod_idemp_r.
    rewrite (linear_slot _ _ _ Hpos Hlin) by lia.
    by rewrite Zminus_mod_idemp_r. }
  rewrite Hoff, (offset_after _ _ _ _ Hpos) by lia.
  destruct (Z.ltb_spec ((j - WriteIndex rb) mod Capacity rb) (zlen d1)).
  - destruct (Z.ltb_spec ((j - WriteIndex rb) mod Capacity rb - zlen d1
                          + Capacity rb) (zlen d2)); [lia|].
    destruct (Z.ltb_spec ((j - WriteIndex rb) mod Capacity rb)
                (zlen d1 + zlen d2)); [|lia].
    by rewrite load_app_l.
  - destruct (Z.ltb_spec ((j - WriteIndex rb) mod Capacity rb - zlen d1)
                (zlen d2)),
      (Z.ltb_spec ((j - WriteIndex rb) mod Capacity rb) (zlen d1 + zlen d2));
      try lia; [|done].
    by rewrite load_app_r.
Qed.

Lemma write_in_two_pieces_witness :
  exists rb1 rb2,
    WriteRingBuffer (mkRB (replicate 15 xff) 15 10 10) hello 14
    = Some (rb1, 14)
    /\ WriteRingBuffer rb1 [x2a] 1 = Some (rb2, 1)
    /\ WriteRingBuffer (mkRB (replicate 15 xff) 15 10 10) (hello ++ [x2a]) 15
       = Some (rb2, 15).
Proof.
  apply (write_in_two_pieces (mkRB (replicate 15 xff) 15 10 10) hello [x2a]).
  - apply wf_check_ok. vm_compute. reflexivity.
  - vm_compute. discriminate.
  - right. vm_compute. discriminate.
Defined.

(** X12.  A read in two pieces: reading [n1] bytes and then [n2] bytes
    delivers, one after the other, the bytes that one read of [n1 + n2]
    bytes delivers, and leaves the same buffer (short reads included), as
    long as the read cursor does not pass the range of [size_t] or the
    capacity divides [2^64]. *)
Theorem read_in_two_pieces rb n1 n2 :
  rb_wf rb -> 0 <= n1 -> 0 <= n2 ->
  linear (Capacity rb) (ReadIndex rb + Z.min (n1 + n2) (CountRingBuffer rb)) ->
  exists rb1 rb2 b1 b2,
    step rb (Read n1) = Some (rb1, Delivered b1)
    /\ step rb1 (Read n2) = Some (rb2, Delivered b2)
    /\ step rb (Read (n1 + n2)) = Some (rb2, Delivered (b1 ++ b2)).
Proof.
  intros Hwf Hn1 Hn2 Hlin.
  pose proof (Count_range rb Hwf) as HC. pose proof (wf_cap rb Hwf) as Hc.
  pose proof (wf_read rb Hwf) as HR.
  destruct (ReadRingBuffer_spec rb (replicate (Z.to_nat n1) x00) n1 Hwf)
    as (o1 & E1 & Hl1 & Hb1); [lia|rewrite zlen_replicate; lia|].
  rewrite zlen_replicate in Hl1 by lia.
  set (m1 := Z.min (CountRingBuffer rb) n1) in *.
  set (rb1 := add_ReadIndex rb m1) in *.
  assert (Hwf1 : rb_wf rb1) by (apply wf_add_ReadIndex; [done|lia]).
  assert (HC1 : CountRingBuffer rb1 = CountRingBuffer rb - m1).
  { unfold rb1. rewrite Count_add_ReadIndex. apply wrap_small. lia. }
  destruct (ReadRingBuffer_spec rb1 (replicate (Z.to_nat n2) x00) n2 Hwf1)
    as (o2 & E2 & Hl2 & Hb2); [lia|rewrite zlen_replicate; lia|].
  rewrite zlen_replicate in Hl2 by lia.
  set (m2 := Z.min (CountRingBuffer rb1) n2) in *.
  destruct (ReadRingBuffer_spec rb (replicate (Z.to_nat (n1 + n2)) x00)
              (n1 + n2) Hwf)
    as (o & E & Hl & Hb); [lia|rewrite zlen_replicate; lia|].
  rewrite zlen_replicate in Hl by lia.
  assert (Hm : Z.min (CountRingBuffer rb) (n1 + n2) = m1 + m2) by lia.
  rewrite Hm in E, Hb. rewrite Z.min_comm, Hm in Hlin.
  change (Buffer rb1) with (Buffer rb) in Hb2.
  change (Capacity rb1) with (Capacity rb) in Hb2.
  change (ReadIndex rb1) with (wrap (ReadIndex rb + m1)) in Hb2.
  exists rb1, (add_ReadIndex rb1 m2),
    (take (Z.to_nat m1) o1), (take (Z.to_nat m2) o2).
  split; [simpl; rewrite E1; done|]. split; [simpl; rewrite E2; done|].
  simpl. rewrite E. simpl. f_equal. f_equal.
  { unfold add_ReadIndex, rb1; simpl. f_equal.
    rewrite wrap_add_l. f_equal. lia. }
  f_equal. apply block_ext.
  { rewrite zlen_app, !zlen_take; lia. }
  rewrite zlen_take by lia. intros i Hi.
  rewrite load_take, Hb by lia.
  destruct (Z.leb_spec 0 i), (Z.ltb_spec i (m1 + m2)); try lia. simpl.
  destruct (Z.lt_ge_cases i m1) as [Hlt|Hge].
  - rewrite load_app_l by (rewrite zlen_take; lia).
    rewrite load_take, Hb1 by lia.
    destruct (Z.leb_spec 0 i), (Z.ltb_spec i m1); try lia. done.
  - rewrite load_app_r by (rewrite zlen_take; lia).
    rewrite zlen_take by lia. rewrite load_take, Hb2 by lia.
    destruct (Z.leb_spec 0 (i - m1)), (Z.ltb_spec (i - m1) m2); try lia.
    simpl. f_equal.
    assert (Hpos : 0 < Capacity rb) by lia.
    rewrite <- (Zplus_mod_idemp_l (wrap _)).
    rewrite (linear_slot _ _ _ Hpos Hlin) by lia.
    rewrite Zplus_mod_idemp_l. f_equal. lia.
Qed.

Lemma read_in_two_pieces_witness :
  exists rb1 rb2 b1 b2,
    step (mkRB hello 14 10 20) (Read 3) = Some (rb1, Delivered b1)
    /\ step rb1 (Read 100) = Some (rb2, Delivered b2)
    /\ step (mkRB hello 14 10 20) (Read 103) = Some (rb2, Delivered (b1 ++ b2)).
Proof.
  apply (read_in_two_pieces (mkRB hello 14 10 20) 3 100).
  - apply wf_check_ok. vm_compute. reflexivity.
  - lia.
  - lia.
  - right. vm_compute. discriminate.
Defined.

(** ** What the storage held before *)

(** X13.  The bytes of the storage that were never written are never
    delivered: two buffers initialised with the same capacity > 0 from
    blocks of any contents return the same counts and the same bytes on
    every run of calls (while the capacity divides [2^64] or at most
    [2^64] bytes are accepted in all). *)
Theorem storage_contents_unobservable malloc1 malloc2 capacity rb1 rb2 ops :
  malloc_ok malloc1 -> malloc_ok malloc2 -> 0 < capacity < SIZE_MOD ->
  InitializeRingBuffer malloc1 capacity = (rb1, capacity) ->
  InitializeRingBuffer malloc2 capacity = (rb2, capacity) ->
  forallb op_ok ops = true ->
  linear capacity
    (Unbounded.writeCursor (Unbounded.run (Unbounded.create capacity) ops).1) ->
  exists rb1' rb2' rs,
    run rb1 ops = Some (rb1', rs) /\ run rb2 ops = Some (rb2', rs)
    /\ ReadIndex rb1' = ReadIndex rb2' /\ WriteIndex rb1' = WriteIndex rb2'.
Proof.
  intros Hm1 Hm2 Hc Hi1 Hi2 Hok Hlin.
  destruct (Initialize_success _ _ _ (proj1 Hc) Hi1) as [-> Hcap1].
  destruct (Initialize_success _ _ _ (proj1 Hc) Hi2) as [-> Hcap2].
  pose proof (sim_create malloc1 capacity Hm1 ltac:(lia)) as Hs1.
  pose proof (sim_create malloc2 capacity Hm2 ltac:(lia)) as Hs2.
  rewrite Hcap1 in Hs1. rewrite Hcap2 in Hs2.
  destruct (sim_run ops _ _ _ Hs1 ltac:(by rewrite Hcap1) Hok (Z.le_refl _))
    as (rb1' & E1 & Hs1').
  destruct (sim_run ops _ _ _ Hs2 ltac:(by rewrite Hcap2) Hok (Z.le_refl _))
    as (rb2' & E2 & Hs2').
  exists rb1', rb2', (Unbounded.run (Unbounded.create capacity) ops).2.
  split; [exact E1|]. split; [exact E2|].
  rewrite (sim_read _ _ Hs1'), (sim_read _ _ Hs2'),
    (sim_write _ _ Hs1'), (sim_write _ _ Hs2'). done.
Qed.

Lemma storage_contents_unobservable_witness :
  exists rb1' rb2' rs,
    run (mkRB (replicate 15 xff) 15 0 0) main_ops = Some (rb1', rs)
    /\ run (mkRB (hello ++ [x00]) 15 0 0) main_ops = Some (rb2', rs)
    /\ ReadIndex rb1' = ReadIndex rb2' /\ WriteIndex rb1' = WriteIndex rb2'.
Proof.
  apply (storage_contents_unobservable filled_malloc
           (fun n => if n =? 15 then Some (hello ++ [x00]) else None) 15).
  - exact filled_malloc_ok.
  - intros n blk. destruct (Z.eqb_spec n 15) as [->|]; [|done].
    by intros [= <-].
  - rewrite SIZE_MOD_val. lia.
  - reflexivity.
  - reflexivity.
  - reflexivity.
  - right. vm_compute. discriminate.
Defined.

(** ** How much of the caller's block is touched *)

(** X14.  Only the clamped count matters to the caller's block: on a
    well-formed buffer and for a [size_t] size, [WriteRingBuffer] is defined
    exactly when the block holds [min(Size, FreeSpace)] bytes and
    [ReadRingBuffer] exactly when it holds [min(Size, Count)] bytes, however
    large [Size] is ([main] reads with size 100 into 15 bytes). *)
Theorem defined_iff_block_holds_count rb Data Size :
  rb_wf rb -> 0 <= Size ->
  (is_Some (WriteRingBuffer rb Data Size)
   <-> Z.min Size (FreeSpaceRingBuffer rb) <= zlen Data)
  /\ (is_Some (ReadRingBuffer rb Data Size)
      <-> Z.min Size (CountRingBuffer rb) <= zlen Data).
Proof.
  intros Hwf HS. pose proof (Count_range rb Hwf) as HC.
  pose proof (FreeSpace_eq rb Hwf) as HF. pose proof (wf_cap rb Hwf) as Hc.
  pose proof (zlen_nonneg Data) as HD.
  rewrite !(Z.min_comm Size). split; split.
  - intros [[rb' n] E]. revert E. unfold WriteRingBuffer, umod.
    set (k := Z.min (FreeSpaceRingBuffer rb) Size).
    destruct (Z.eqb_spec (Capacity rb) 0) as [E0|E0]; [lia|].
    cbn [mbind option_bind].
    destruct (Z.eqb_spec k 0) as [Ek|Ek]; [lia|].
    pose proof (Z.mod_pos_bound (WriteIndex rb) (Capacity rb) ltac:(lia)) as HI.
    rewrite (wrap_small (Capacity rb - _)) by lia.
    destruct (Z.leb_spec k (Capacity rb - WriteIndex rb mod Capacity rb)).
    + destruct (memcpy _ _ _ _ _) as [blk|] eqn:Em; [|done].
      apply memcpy_inv in Em as [(_ & _ & _ & _ & H5) _]. lia.
    + destruct (memcpy (Buffer rb) _ _ _ _) as [blk1|] eqn:Em1; [|done].
      cbn [mbind option_bind].
      destruct (memcpy blk1 _ _ _ _) as [blk|] eqn:Em2; [|done].
      apply memcpy_inv in Em2 as [(_ & _ & _ & _ & H5) _].
      rewrite wrap_small in H5 by lia. lia.
  - intros Hle.
    destruct (WriteRingBuffer_spec rb Data Size Hwf HS Hle) as (blk & E & _).
    rewrite E. by eexists.
  - intros [[[rb' out] n] E]. revert E. unfold ReadRingBuffer, umod.
    set (k := Z.min (CountRingBuffer rb) Size).
    destruct (Z.eqb_spec (Capacity rb) 0) as [E0|E0]; [lia|].
    cbn [mbind option_bind].
    destruct (Z.eqb_spec k 0) as [Ek|Ek]; [lia|].
    pose proof (Z.mod_pos_bound (ReadIndex rb) (Capacity rb) ltac:(lia)) as HI.
    rewrite (wrap_small (Capacity rb - _)) by lia.
    destruct (Z.leb_spec k (Capacity rb - ReadIndex rb mod Capacity rb)).
    + destruct (memcpy _ _ _ _ _) as [o|] eqn:Em; [|done].
      apply memcpy_inv in Em as [(_ & _ & _ & H4 & _) _]. lia.
    + destruct (memcpy Data _ _ _ _) as [o1|] eqn:Em1; [|done].
      cbn [mbind option_bind].
      pose proof (memcpy_zlen _ _ _ _ _ _ Em1) as Hl1.
      destruct (memcpy o1 _ _ _ _) as [o|] eqn:Em2; [|done].
      apply memcpy_inv in Em2 as [(_ & _ & _ & H4 & _) _].
      rewrite wrap_small in H4 by lia. lia.
  - intros Hle.
    destruct (ReadRingBuffer_spec rb Data Size Hwf HS Hle) as (out & E & _).
    rewrite E. by eexists.
Qed.

Lemma defined_iff_block_holds_count_witness :
  is_Some (ReadRingBuffer (mkRB (replicate 15 x2a) 15 42 43)
             (replicate 15 x00) 100)
  /\ ~ is_Some (WriteRingBuffer (mkRB (replicate 15 x2a) 15 42 43)
                  [x21] 100).
Proof.
  destruct (defined_iff_block_holds_count (mkRB (replicate 15 x2a) 15 42 43)
              (replicate 15 x00) 100) as [_ HR].
  - apply wf_check_ok. vm_compute. reflexivity.
  - lia.
  - destruct (defined_iff_block_holds_count (mkRB (replicate 15 x2a) 15 42 43)
                [x21] 100) as [HW _].
    + apply wf_check_ok. vm_compute. reflexivity.
    + lia.
    + split.
      * apply HR. vm_compute. discriminate.
      * intros H. apply HW in H. vm_compute in H. by apply H.
Defined.
